(** * Cage-Board narrative engine: a shallow embedding of [engine.ts] and of
    the planner in [App.tsx], with the properties of the specification.

    Conventions of the embedding.
    - A JavaScript number is a value of [num]: an exact rational, one of the
      two infinities, or NaN.  Arithmetic is exact (IEEE rounding and the sign
      of zero are outside the model) and keeps its results in lowest terms;
      every special-value rule the code can reach (NaN propagation, division
      by zero, comparisons with NaN, truthiness of [0] and NaN) is written
      out.
    - A JavaScript string is a [string] of bytes; [trim] strips the ASCII
      white space and line terminators.
    - A JavaScript object used as a dictionary is a [gmap string _]; reading
      an absent property gives [None] ([undefined]).
    - A [Set<string>] is a [gset string].
    - A call that throws returns [Throw]; everything else returns [Ok]. *)

From Stdlib Require Import QArith Qround Lqa ZArith Lia Ascii.
From stdpp Require Import base option list gmap sets strings.

(** ** JavaScript numbers *)

Module JS.

Inductive num : Type :=
  | Fin (q : Q)
  | PInf
  | NInf
  | NaN.

Definition Qlt_bool (a b : Q) : bool := negb (Qle_bool b a).

Definition neg (a : num) : num :=
  match a with
  | Fin q => Fin (- q)
  | PInf => NInf
  | NInf => PInf
  | NaN => NaN
  end.

Definition add (a b : num) : num :=
  match a, b with
  | NaN, _ | _, NaN => NaN
  | Fin x, Fin y => Fin (Qred (x + y))
  | PInf, NInf | NInf, PInf => NaN
  | PInf, _ | _, PInf => PInf
  | NInf, _ | _, NInf => NInf
  end.

Definition sub (a b : num) : num := add a (neg b).

(** The infinity of the sign of [q], NaN when [q] is zero. *)
Definition inf_of_sign (q : Q) : num :=
  if Qlt_bool 0 q then PInf else if Qlt_bool q 0 then NInf else NaN.

Definition mul (a b : num) : num :=
  match a, b with
  | NaN, _ | _, NaN => NaN
  | Fin x, Fin y => Fin (Qred (x * y))
  | PInf, Fin y | Fin y, PInf => inf_of_sign y
  | NInf, Fin y | Fin y, NInf => inf_of_sign (- y)
  | PInf, PInf | NInf, NInf => PInf
  | PInf, NInf | NInf, PInf => NInf
  end.

(** Division; a zero divisor is taken as [+0]. *)
Definition div (a b : num) : num :=
  match a, b with
  | NaN, _ | _, NaN => NaN
  | Fin x, Fin y => if Qeq_bool y 0 then inf_of_sign x else Fin (Qred (x / y))
  | Fin _, (PInf | NInf) => Fin 0
  | (PInf | NInf), (PInf | NInf) => NaN
  | PInf, Fin y => if Qlt_bool y 0 then NInf else PInf
  | NInf, Fin y => if Qlt_bool y 0 then PInf else NInf
  end.

(** [a < b], [a <= b], [a > b]: false as soon as one side is NaN. *)
Definition lt (a b : num) : bool :=
  match a, b with
  | NaN, _ | _, NaN => false
  | Fin x, Fin y => Qlt_bool x y
  | NInf, (Fin _ | PInf) => true
  | Fin _, PInf => true
  | _, _ => false
  end.

Definition le (a b : num) : bool :=
  match a, b with
  | NaN, _ | _, NaN => false
  | Fin x, Fin y => Qle_bool x y
  | NInf, _ => true
  | _, PInf => true
  | _, _ => false
  end.

Definition gt (a b : num) : bool := lt b a.

(** Truthiness of a number: [0] and NaN are falsy. *)
Definition truthy (a : num) : bool :=
  match a with
  | Fin q => negb (Qeq_bool q 0)
  | PInf | NInf => true
  | NaN => false
  end.

(** [x || 0] on a number. *)
Definition or0 (a : num) : num := if truthy a then a else Fin 0.

Definition isNaN (a : num) : bool :=
  match a with NaN => true | _ => false end.

(** [Number.isFinite]. *)
Definition isFinite (a : num) : bool :=
  match a with Fin _ => true | _ => false end.

Definition of_nat (n : nat) : num := Fin (inject_Z (Z.of_nat n)).

(** ** JavaScript strings *)

(** [String.prototype.trim]. *)
Fixpoint trimStart (s : string) : string :=
  match s with
  | "" => ""
  | String c r => if Ascii.is_space c then trimStart r else s
  end.

Definition trimEnd (s : string) : string := String.rev (trimStart (String.rev s)).

Definition trim (s : string) : string := trimEnd (trimStart s).

(** Put one more character in front of the first piece of a split. *)
Definition push_front (c : ascii) (ps : list string) : list string :=
  match ps with
  | [] => [String c ""]
  | p :: ps' => String c p :: ps'
  end.

(** [s.split(sep)] for a one-character separator: never empty, [""] for the
    empty string. *)
Fixpoint split (sep : ascii) (s : string) : list string :=
  match s with
  | "" => [""]
  | String c r =>
      if Ascii.eqb c sep then "" :: split sep r else push_front c (split sep r)
  end.

(** [s.split(/\r?\n/)]. *)
Fixpoint splitLines (s : string) : list string :=
  match s with
  | "" => [""]
  | String c r =>
      if Ascii.eqb c "010" then "" :: splitLines r
      else
        match r with
        | String c' r' =>
            if Ascii.eqb c "013" && Ascii.eqb c' "010" then "" :: splitLines r'
            else push_front c (splitLines r)
        | "" => [String c ""]
        end
  end.

Definition startsWith (s pre : string) : bool := String.prefix pre s.

Definition endsWith (s suf : string) : bool :=
  String.prefix (String.rev suf) (String.rev s).

(** ** [Number(string)]: the StringToNumber grammar

    The value of a literal is exact, whatever its size. *)

Definition digit_val (base : Z) (c : ascii) : option Z :=
  let n := Z.of_N (N_of_ascii c) in
  let v :=
    (if (48 <=? n) && (n <=? 57) then Some (n - 48)
     else if (97 <=? n) && (n <=? 102) then Some (n - 87)
     else if (65 <=? n) && (n <=? 70) then Some (n - 55)
     else None)%Z in
  match v with
  | Some d => if (d <? base)%Z then Some d else None
  | None => None
  end.

(** The longest run of digits at the front of [s]: its value, its length, and
    what follows. *)
Fixpoint digits (base : Z) (s : string) (acc : Z) (len : nat) : Z * nat * string :=
  match s with
  | "" => (acc, len, "")
  | String c r =>
      match digit_val base c with
      | Some d => digits base r (acc * base + d)%Z (S len)
      | None => (acc, len, s)
      end
  end.

(** [m * 10^e] as a rational. *)
Definition scale10 (m e : Z) : Q :=
  if (0 <=? e)%Z then inject_Z (m * 10 ^ e)
  else Qmake m (Z.to_pos (10 ^ (- e))).

(** An optional sign: [true] for a minus. *)
Definition sign (s : string) : bool * string :=
  match s with
  | String "-" r => (true, r)
  | String "+" r => (false, r)
  | _ => (false, s)
  end.

(** The exponent part; [None] when what is left is not one. *)
Definition exponent (s : string) : option Z :=
  match s with
  | "" => Some 0%Z
  | String c r =>
      if Ascii.eqb c "e" || Ascii.eqb c "E" then
        let '(minus, r1) := sign r in
        match digits 10 r1 0 0 with
        | (_, O, _) => None
        | (e, _, "") => Some (if minus then - e else e)%Z
        | _ => None
        end
      else None
  end.

(** An unsigned decimal literal. *)
Definition unsignedDecimal (s : string) : option Q :=
  let '(ip, ilen, r1) := digits 10 s 0 0 in
  let '(m, flen, r2) :=
    match r1 with
    | String "." r => digits 10 r ip 0
    | _ => (ip, O, r1)
    end in
  match ilen, flen with
  | O, O => None
  | _, _ =>
      match exponent r2 with
      | Some e => Some (scale10 m (e - Z.of_nat flen))
      | None => None
      end
  end.

(** A literal in base 16, 8 or 2, after its two-character prefix. *)
Definition radixLiteral (base : Z) (s : string) : num :=
  match digits base s 0 0 with
  | (_, O, _) => NaN
  | (v, _, "") => Fin (inject_Z v)
  | _ => NaN
  end.

Definition StringToNumber (s : string) : num :=
  match trim s with
  | "" => Fin 0
  | String "0" (String "x" r) | String "0" (String "X" r) => radixLiteral 16 r
  | String "0" (String "o" r) | String "0" (String "O" r) => radixLiteral 8 r
  | String "0" (String "b" r) | String "0" (String "B" r) => radixLiteral 2 r
  | t =>
      let '(minus, body) := sign t in
      if String.eqb body "Infinity" then (if minus then NInf else PInf)
      else
        match unsignedDecimal body with
        | Some q => Fin (if minus then - q else q)
        | None => NaN
        end
  end.

(** A cell of a row: [number | string], or [undefined]. *)
Inductive value : Type :=
  | VNum (n : num)
  | VStr (s : string)
  | VUndef.

(** [Number(v)]. *)
Definition Number (v : value) : num :=
  match v with
  | VNum n => n
  | VStr s => StringToNumber s
  | VUndef => NaN
  end.

(** The result of a call that may throw. *)
Inductive result (A : Type) : Type :=
  | Ok (a : A)
  | Throw (msg : string).
Arguments Ok {A} a.
Arguments Throw {A} msg.

Definition bind {A B} (r : result A) (k : A → result B) : result B :=
  match r with
  | Ok a => k a
  | Throw m => Throw m
  end.

(** [rows.map(f)] for an [f] that may throw: stops at the first throw. *)
Fixpoint mapM {A B} (f : A → result B) (l : list A) : result (list B) :=
  match l with
  | [] => Ok []
  | x :: r =>
      bind (f x) (λ y, bind (mapM f r) (λ ys, Ok (y :: ys)))
  end.

End JS.

(** ** [engine.ts] *)

Module Engine.
Import JS.

(** [Row = Record<string, number|string>]. *)
Abbreviation Row := (gmap string value).

(** [r[k]]: [undefined] for an absent key. *)
Definition cell (r : Row) (k : string) : value := default VUndef (r !! k).

Record Bin := { id : string; max : num }.
Record Windows := { w_trend : num; w_variance : num }.
Record NcvSpec := { from : string; map : list (string * string) }.
Record Threshold := { cond : string; then_ : list string }.

Record Codebook := {
  entity : string;
  channels : list string;
  windows : option Windows;
  bins : gmap string (list Bin);
  ncv : option (list (string * NcvSpec));
  thresholds : option (list Threshold)
}.

(** [parseCSV]. *)
Definition header_like (h : string) : bool :=
  isNaN (StringToNumber h) && negb (String.eqb h "").

Definition parseLine (headers : list string) (ln : string) : Row :=
  let cols := trim <$> split "," ln in
  fold_left
    (λ (obj : Row) (hi : nat * string),
       let c := cols !! hi.1 in
       let n := Number (from_option VStr VUndef c) in
       <[hi.2 := if isFinite n then VNum n else from_option VStr VUndef c]> obj)
    (imap (λ i h, (i, h)) headers) ∅.

Definition parseCSV (text : string) : list Row :=
  let lines := splitLines (trim text) in
  let headers := trim <$> split "," (hd "" lines) in
  let hasHeader := existsb header_like headers in
  if negb hasHeader then
    (λ ln, {[ "value" := VNum (StringToNumber (trim ln)) ]} : Row) <$> lines
  else parseLine headers <$> tl lines.

(** [binValue]: the first bin whose [max] is at least [v], else the last bin;
    reading [.id] of the last element of an empty list throws. *)
Definition binValue (bins : list Bin) (v : num) : result string :=
  match find (λ b, le v (max b)) bins with
  | Some b => Ok (id b)
  | None =>
      match last bins with
      | Some b => Ok (id b)
      | None => Throw "TypeError: Cannot read properties of undefined (reading 'id')"
      end
  end.

(** [Math.max(0, x)]. *)
Definition max0 (x : num) : num :=
  match x with
  | NaN => NaN
  | _ => if lt (Fin 0) x then x else Fin 0
  end.

(** The start index [rows.slice(start, _)] uses for a [start] that is not
    negative: truncated, NaN read as 0, and capped by the length. *)
Definition sliceStart (start : num) (len : nat) : nat :=
  match start with
  | Fin q => Nat.min (Z.to_nat (Qfloor q)) len
  | PInf => len
  | NInf | NaN => 0
  end.

Record Roll := { mean : num; variance : num; trend : num }.

Definition sum (arr : list num) : num := fold_left add arr (Fin 0).

(** [rolling]. *)
Definition rolling (rows : list Row) (idx : nat) (n : num) (key : string) : Roll :=
  let start := max0 (add (sub (of_nat idx) n) (Fin 1)) in
  let from := sliceStart start (length rows) in
  let arr := (λ r, or0 (Number (cell r key))) <$> take (S idx - from) (drop from rows) in
  let len := of_nat (length arr) in
  let mean := div (sum arr) len in
  let variance :=
    div (fold_left (λ a b, add a (mul (sub b mean) (sub b mean))) arr (Fin 0)) len in
  let trend :=
    if (1 <? length arr)%nat
    then sub (default NaN (last arr)) (default NaN (head arr))
    else Fin 0 in
  {| mean := mean; variance := variance; trend := trend |}.

(** The state object built for one row.  A tag is a string or [undefined]. *)
Record State := {
  raw : Row;
  s_bins : gmap string string;
  s_trend : gmap string num;
  s_var : gmap string num;
  s_setpoint : gmap string string;
  s_relative : gmap string string;
  s_NCV : gmap string (option string)
}.

(** A number read from a property that may be absent: [undefined] compares
    as NaN. *)
Definition numOf (v : option num) : num := default NaN v.

(** One turn of the loop over [codebook.channels]; iterating over the
    [undefined] that a channel without bins gives throws. *)
Definition channelStep (rows : list Row) (idx : nat) (win : num) (cb : Codebook)
    (r : Row) (s : State) (ch : string) : result State :=
  match bins cb !! ch with
  | None => Throw "TypeError: bins is not iterable"
  | Some bs =>
      bind (binValue bs (or0 (Number (cell r ch)))) (λ b,
        let roll := rolling rows idx win ch in
        Ok {| raw := raw s;
              s_bins := <[ch := b]> (s_bins s);
              s_trend := <[ch := trend roll]> (s_trend s);
              s_var := <[ch := variance roll]> (s_var s);
              s_setpoint := s_setpoint s;
              s_relative := s_relative s;
              s_NCV := s_NCV s |})
  end.

Fixpoint foldM {A B} (f : A → B → result A) (a : A) (l : list B) : result A :=
  match l with
  | [] => Ok a
  | x :: r => bind (f a x) (λ a', foldM f a' r)
  end.

Definition setpointStep (s : State) : State :=
  match s_bins s !! "temp" with
  | Some b =>
      {| raw := raw s; s_bins := s_bins s; s_trend := s_trend s; s_var := s_var s;
         s_setpoint := <["temp" := b]> (s_setpoint s);
         s_relative := s_relative s; s_NCV := s_NCV s |}
  | None => s
  end.

Definition relativeStep (r : Row) (s : State) : State :=
  if bool_decide (is_Some (r !! "lum")) && bool_decide (is_Some (r !! "transpiration")) then
    let l := or0 (Number (cell r "lum")) in
    let tr := or0 (Number (cell r "transpiration")) in
    let tag :=
      if gt (sub l tr) (Fin 0.1) then "lum_dominant"
      else if gt (sub tr l) (Fin 0.1) then "transpiration_dominant"
      else "balanced" in
    {| raw := raw s; s_bins := s_bins s; s_trend := s_trend s; s_var := s_var s;
       s_setpoint := s_setpoint s;
       s_relative := <["lum_vs_transpiration" := tag]> (s_relative s);
       s_NCV := s_NCV s |}
  else s.

(** [src.split('.')[i]] used as a property name. *)
Definition part (src : string) (i : nat) : string :=
  default "undefined" (split "." src !! i).

(** The tag an NCV rule reads from the state. *)
Definition sourceTag (s : State) (src : string) : option string :=
  if endsWith src ".var" then
    let v := numOf (s_var s !! part src 0) in
    Some (if lt v (Fin 0.0001) then "low" else if lt v (Fin 0.005) then "med" else "high")
  else if endsWith src ".trend" then
    let v := numOf (s_trend s !! part src 0) in
    Some (if gt v (Fin 0.01) then "up" else if lt v (Fin (-0.01)) then "down" else "flat")
  else if startsWith src "setpoint." then s_setpoint s !! part src 1
  else if startsWith src "relative." then s_relative s !! part src 1
  else if endsWith src ".bin" then s_bins s !! part src 0
  else Some "flat".

(** [spec.map.find(p => p[0] === tag)]. *)
Definition findPair (m : list (string * string)) (tag : option string) : option (string * string) :=
  match tag with
  | Some t => find (λ p, bool_decide (p.1 = t)) m
  | None => None
  end.

Definition ncvStep (s : State) (kv : string * NcvSpec) : State :=
  let tag := sourceTag s (from kv.2) in
  let out := match findPair (map kv.2) tag with Some p => Some p.2 | None => tag end in
  {| raw := raw s; s_bins := s_bins s; s_trend := s_trend s; s_var := s_var s;
     s_setpoint := s_setpoint s; s_relative := s_relative s;
     s_NCV := <[kv.1 := out]> (s_NCV s) |}.

Definition emptyState (r : Row) : State :=
  {| raw := r; s_bins := ∅; s_trend := ∅; s_var := ∅;
     s_setpoint := ∅; s_relative := ∅; s_NCV := ∅ |}.

(** The window: [codebook.windows?.trend ?? 5]. *)
Definition window (cb : Codebook) : num :=
  match windows cb with
  | Some w => w_trend w
  | None => Fin 5
  end.

(** The callback of [rows.map] in [computeStates]. *)
Definition stateOf (rows : list Row) (cb : Codebook) (idx : nat) (r : Row) : result State :=
  bind (foldM (channelStep rows idx (window cb) cb r) (emptyState r) (channels cb)) (λ s,
    Ok (fold_left ncvStep (default [] (ncv cb)) (relativeStep r (setpointStep s)))).

(** [computeStates]. *)
Definition computeStates (rows : list Row) (cb : Codebook) : result (list State) :=
  mapM (λ ir, stateOf rows cb ir.1 ir.2) (imap (λ i r, (i, r)) rows).

(** [selectFunctions].  The rule's expression is compiled and run by the
    JavaScript engine ([Function(...)]); [evalExpr] stands for that
    evaluation: [Some b] for the truthiness of its value, [None] when it
    throws (the [catch] then skips the rule). *)
Section SelectFunctions.
Variable evalExpr : string → gmap string value → option bool.

Definition optStr (o : option string) : value := from_option VStr VUndef o.
Definition optNum (o : option num) : value := from_option VNum VUndef o.

Definition envOf (s : State) : gmap string value :=
  <["seismic.trend" := optNum (s_trend s !! "seismic")]>
  (<["gas_flux.bin" := optStr (s_bins s !! "gas_flux")]>
  (<["tilt.bin" := optStr (s_bins s !! "tilt")]>
  (<["seismic.bin" := optStr (s_bins s !! "seismic")]>
  (<["lum.trend" := optNum (s_trend s !! "lum")]>
  (<["bio_potential.trend" := optNum (s_trend s !! "bio_potential")]>
  (<["lum.bin" := optStr (s_bins s !! "lum")]>
  (<["temp.bin" := optStr (s_bins s !! "temp")]> ∅))))))).

Definition selectFunctions (s : State) (cb : Codebook) : list string :=
  flat_map
    (λ rule, match evalExpr (cond rule) (envOf s) with
             | Some true => then_ rule
             | _ => []
             end)
    (default [] (thresholds cb)).
End SelectFunctions.

End Engine.

(** ** [App.tsx]: regimes, bridges, palettes and the planner *)

Module App.
Import JS Engine.

Inductive Regime : Type := horror | trickster | thriller | fairytale | shamanic.

#[global] Instance Regime_eq_dec : EqDecision Regime.
Proof. solve_decision. Defined.

Definition REGIME_LIST : list Regime := [horror; trickster; thriller; fairytale; shamanic].

Definition regimeName (r : Regime) : string :=
  match r with
  | horror => "horror"
  | trickster => "trickster"
  | thriller => "thriller"
  | fairytale => "fairytale"
  | shamanic => "shamanic"
  end.

(** Which pivots are allowed when tone changes. *)
Definition ALLOWED_BRIDGES : gmap string string :=
  list_to_map [
    ("horror->shamanic", "bridge.underworld_mouth");
    ("thriller->trickster", "bridge.unreliable_ally");
    ("fairytale->horror", "bridge.taboo_broken");
    ("trickster->shamanic", "bridge.taboo_place_opens");
    ("thriller->horror", "bridge.dark_turn");
    ("horror->thriller", "bridge.fight_or_flee");
    ("fairytale->trickster", "bridge.rule_bent");
    ("trickster->fairytale", "bridge.bargain_matures")
  ].

Record Palette := {
  movement : list string;
  environment : list string;
  challenge : list string;
  support : list string;
  maintenance : list string;
  reflection : list string
}.

Definition PALETTE (r : Regime) : Palette :=
  match r with
  | horror =>
      {| movement := ["fn.road_walk"; "fn.trail_cut"; "fn.descend"];
         environment := ["fn.noise_far"; "fn.light_fails"; "fn.smell_metallic"];
         challenge := ["fn.stalked"; "fn.wrong_place"; "fn.near_miss"];
         support := ["fn.find_marker"];
         maintenance := ["fn.repack"; "fn.eat"];
         reflection := ["fn.breath_held"] |}
  | trickster =>
      {| movement := ["fn.road_walk"; "fn.trail_cut"; "fn.crossing"];
         environment := ["fn.sign_confusing"; "fn.double_identity"];
         challenge := ["fn.misdirection"; "fn.lost_item"; "fn.bad_bargain"];
         support := ["fn.find_marker"; "fn.stranger_hint"];
         maintenance := ["fn.repack"; "fn.eat"];
         reflection := ["fn.joke_turns"] |}
  | thriller =>
      {| movement := ["fn.ascend"; "fn.descend"; "fn.road_walk"];
         environment := ["fn.noise_close"; "fn.weather_shift"; "fn.light_change"];
         challenge := ["fn.chase"; "fn.obstacle"; "fn.cross_danger"];
         support := ["fn.aid_sign"; "fn.memory_map"];
         maintenance := ["fn.repair_boot"; "fn.eat"];
         reflection := ["fn.count_distance"] |}
  | fairytale =>
      {| movement := ["fn.trail_cut"; "fn.crossing"; "fn.road_walk"];
         environment := ["fn.feast_smell"; "fn.lanterns"; "fn.strange_music"];
         challenge := ["fn.rule_presented"; "fn.giant_block"; "fn.trial_riddle"];
         support := ["fn.helper_offers"; "fn.gift_small"];
         maintenance := ["fn.repack"; "fn.eat"];
         reflection := ["fn.promise_made"] |}
  | shamanic =>
      {| movement := ["fn.descend"; "fn.crossing"; "fn.road_walk"];
         environment := ["fn.breath_current"; "fn.stone_names"; "fn.bone_orchard"];
         challenge := ["fn.ordeal_dark"; "fn.name_turns"; "fn.river_black"];
         support := ["fn.guide_sign"; "fn.memory_map"];
         maintenance := ["fn.repack"; "fn.eat"];
         reflection := ["fn.naming"; "fn.pattern_seen"] |}
  end.

(** Bridge functions map to sentences. *)
Definition BRIDGE_FNS : gmap string string :=
  list_to_map [
    ("bridge.underworld_mouth",
      "A seam opens in the hillside, breathing cold air. They look at each other and step in.");
    ("bridge.unreliable_ally",
      "The helpful voice on the radio crackles and contradicts itself. They realize it has been leading them in circles.");
    ("bridge.taboo_broken",
      "The feast’s host asks them to eat in silence; Jill laughs. Every lantern goes out at once.");
    ("bridge.taboo_place_opens",
      "The prank goes too far; a door in the ground that was never there swings open.");
    ("bridge.dark_turn",
      "The shortcut isn’t empty. Shapes move between the columns; they pick up speed.");
    ("bridge.fight_or_flee",
      "The stalker shows himself at last; they sprint and do not look back.");
    ("bridge.rule_bent",
      "The path sign points one way, but the small footprints go the other.");
    ("bridge.bargain_matures",
      "The trick they played earlier finds its balance; a basket sits waiting with their lost map inside.")
  ].

(** Local fallback surfaces. *)
Definition SURFACES_FALLBACK : gmap string (list string) :=
  list_to_map [
    ("fn.road_walk",
      ["They follow the service road skirting the river.";
       "They stay on the hardpack, keeping the turbines behind them."]);
    ("fn.trail_cut",
      ["They leave the road and step onto a narrow trail through fir and alder.";
       "They slip past the fence and take a maintenance path toward higher ground."]);
    ("fn.ascend",
      ["The grade steepens. They take it in short, even climbs."]);
    ("fn.descend",
      ["The trail drops into a draw; rocks slide underfoot."]);
    ("fn.crossing",
      ["They wade a cold braid of the river, boots slung by their laces."]);
    ("fn.noise_far",
      ["Somewhere upslope, something moves when they move; then stops."]);
    ("fn.noise_close",
      ["A clatter nearby makes them freeze. When it quiets, they move again."]);
    ("fn.light_fails",
      ["Cloud cover thickens. Flashlights make narrow cones in the trees."]);
    ("fn.light_change",
      ["The sun slips from behind cloud; the path brightens in patches."]);
    ("fn.smell_metallic",
      ["The air smells metallic, as if the dam were still inside the forest."]);
    ("fn.sign_confusing",
      ["Two arrows on the same post point opposite directions."]);
    ("fn.double_identity",
      ["They greet a traveler who later passes them again from the wrong direction."]);
    ("fn.weather_shift",
      ["Rain starts and stops within a minute. A second front is coming."]);
    ("fn.feast_smell",
      ["They smell bread and smoke where no houses stand."]);
    ("fn.lanterns",
      ["Lanterns swing from low branches, lit from no source they can see."]);
    ("fn.strange_music",
      ["Music they cannot place drifts over the creek."]);
    ("fn.breath_current",
      ["The tunnel exhales; air moves toward darkness and they follow."]);
    ("fn.stone_names",
      ["Jane names the stones as they pass; Jill repeats the names."]);
    ("fn.bone_orchard",
      ["White shapes stand in a grove. They do not touch them."]);
    ("fn.stalked",
      ["They are being matched step for step. When they stop, it stops."]);
    ("fn.wrong_place",
      ["They come into a clearing that should not be here; every path seems new."]);
    ("fn.near_miss",
      ["Footing goes, but they catch a trunk and hold until the shake passes."]);
    ("fn.misdirection",
      ["A friendly voice points them to a shortcut that loops back on itself."]);
    ("fn.lost_item",
      ["They check their packs and find the compass missing."]);
    ("fn.bad_bargain",
      ["A trader wants too much for a hint. They walk on."]);
    ("fn.chase",
      ["Movement behind becomes pursuit. They run until their breath burns."]);
    ("fn.obstacle",
      ["A fallen tree blocks the way; they crawl and pass packs across."]);
    ("fn.cross_danger",
      ["They cross a spillway grate one by one, each step sounding hollow."]);
    ("fn.rule_presented",
      ["A sign reads: “Do not speak while the bridge is crossed.”"]);
    ("fn.giant_block",
      ["A boulder, too round for this valley, sits squarely on the trail."]);
    ("fn.trial_riddle",
      ["A child asks a question that isn’t a question. They answer with a nod."]);
    ("fn.ordeal_dark",
      ["Without lights, they count steps and turns; the dark equals them."]);
    ("fn.name_turns",
      ["A name they used earlier won’t work now; they try another."]);
    ("fn.river_black",
      ["The river here is black and moving fast; they cross in silence."]);
    ("fn.find_marker",
      ["At a fork, a survey marker points east. They mark the map and continue."]);
    ("fn.aid_sign",
      ["Fresh paint on an old post shows an arrow where none had been before."]);
    ("fn.memory_map",
      ["Jill reconstructs the creek bends from memory, and they correct course."]);
    ("fn.helper_offers",
      ["An old woman offers a pebble “for finding your way back.” They keep it."]);
    ("fn.gift_small",
      ["Under a flat stone, someone left a biscuit wrapped in paper."]);
    ("fn.guide_sign",
      ["A white moth waits at the mouth of the tunnel, wings like a small flag."]);
    ("fn.stranger_hint",
      ["“Keep left at the fork,” a man under the bridge says."]);
    ("fn.repair_boot",
      ["They tape a frayed strap and change socks."]);
    ("fn.eat",
      ["They split an apple and drink from the thermos."]);
    ("fn.repack",
      ["They redistribute weight between the packs and set off again."]);
    ("fn.breath_held",
      ["They make a stretch without speaking, counting breaths."]);
    ("fn.joke_turns",
      ["A joke from earlier lands wrong; they let it go."]);
    ("fn.count_distance",
      ["They estimate they’ve made four more kilometers since the dam."]);
    ("fn.promise_made",
      ["They agree not to enter any building with a second story."]);
    ("fn.naming",
      ["They repeat the names for the turns until the names feel right."]);
    ("fn.pattern_seen",
      ["The path repeats a pattern of three rises and a bend; they trust it."]);
    ("fn.call",
      ["They shoulder their packs and check the map. The road runs east along the river."]);
    ("fn.threshold_crossing",
      ["They leave the access road beyond the fence line. The plant hum fades behind them."]);
    ("fn.return",
      ["A lane appears between trees. They walk the last hundred meters without a word."])
  ].

(** ** Surface lookup *)

(** One entry of [surfaces.json]: the [binds] of the entry and its text.  An
    absent (or empty) bind is [None]; an absent text is the empty string. *)
Record Surface := {
  b_function : option string;
  b_mood : option string;
  b_pov : option string;
  b_time : option string;
  b_terrain : option string;
  text : string
}.

(** A tag object such as [s.NCV]: a tag is a string or [undefined]. *)
Abbreviation Tags := (gmap string (option string)).

Definition getTag (t : Tags) (k : string) : option string := default None (t !! k).

(** [!bind || bind === NCV?.key]. *)
Definition bindOk (b : option string) (t : Tags) (k : string) : bool :=
  match b with
  | None | Some "" => true
  | Some v => bool_decide (getTag t k = Some v)
  end.

Definition bindsFn (fn : string) (s : Surface) : bool :=
  bool_decide (b_function s = Some fn).

Section Surfaces.
Variable surfaces : list Surface.

(** [pickSurfaceText]. *)
Definition pickSurfaceText (fn : string) (NCV : Tags) : string :=
  let candidates :=
    filter (λ s, bindsFn fn s && bindOk (b_mood s) NCV "mood"
                   && bindOk (b_pov s) NCV "pov"
                   && bindOk (b_time s) NCV "time"
                   && bindOk (b_terrain s) NCV "terrain" = true) surfaces in
  match candidates with
  | c :: _ => text c
  | [] =>
      match SURFACES_FALLBACK !! fn with
      | Some (l :: _) => l
      | _ =>
          match find (bindsFn fn) surfaces with
          | Some loose => text loose
          | None => ""
          end
      end
  end.
End Surfaces.

(** ** Beat metadata: preconditions and effects *)

Record BeatRule := { needs : option (list string); gives : option (list string) }.

Definition BEAT_RULES : gmap string BeatRule :=
  list_to_map [
    ("fn.trail_cut", {| needs := Some ["left_road"]; gives := Some ["in_trail"] |});
    ("fn.road_walk", {| needs := None; gives := Some ["on_road"] |});
    ("fn.crossing", {| needs := Some ["in_trail"]; gives := Some ["wet"] |});
    ("fn.ascend", {| needs := Some ["in_trail"]; gives := Some ["high_ground"] |});
    ("fn.descend", {| needs := Some ["in_trail"]; gives := Some [] |});
    ("fn.light_fails", {| needs := None; gives := Some ["low_light"] |});
    ("fn.noise_close", {| needs := None; gives := Some ["alert"] |});
    ("fn.stalked", {| needs := Some ["low_light"]; gives := Some ["pursued"] |});
    ("fn.obstacle", {| needs := Some ["in_trail"]; gives := Some ["detour"] |});
    ("fn.cross_danger", {| needs := Some ["wet"]; gives := Some ["shaken"] |});
    ("fn.ordeal_dark", {| needs := Some ["low_light"]; gives := Some ["ordeal"] |});
    ("fn.find_marker", {| needs := Some ["in_trail"]; gives := Some ["oriented"] |});
    ("fn.repair_boot", {| needs := Some ["shaken"]; gives := Some ["steadied"] |});
    ("fn.eat", {| needs := None; gives := Some ["fed"] |});
    ("fn.repack", {| needs := None; gives := Some ["ordered"] |});
    ("fn.call", {| needs := None; gives := Some ["left_road"] |});
    ("fn.threshold_crossing", {| needs := Some ["on_road"]; gives := Some ["in_trail"] |});
    ("fn.return", {| needs := None; gives := Some ["approach"] |})
  ].

(** [BEAT_RULES[fn]?.needs] and [BEAT_RULES[fn]?.gives]. *)
Definition needsOf (fn : string) : option (list string) := BEAT_RULES !! fn ≫= needs.
Definition givesOf (fn : string) : option (list string) := BEAT_RULES !! fn ≫= gives.

Definition hasAll (tokens : gset string) (needs : option (list string)) : bool :=
  match needs with
  | None | Some [] => true
  | Some ts => forallb (λ t, bool_decide (t ∈ tokens)) ts
  end.

Definition applyGives (tokens : gset string) (gives : option (list string)) : gset string :=
  match gives with
  | None => tokens
  | Some ts => fold_left (λ acc t, acc ∪ {[t]}) ts tokens
  end.

(** ** Regime classifier *)

Record Weights := {
  w_horror : num;
  w_trickster : num;
  w_thriller : num;
  w_fairytale : num;
  w_shamanic : num
}.

Definition wget (w : Weights) (k : Regime) : num :=
  match k with
  | horror => w_horror w
  | trickster => w_trickster w
  | thriller => w_thriller w
  | fairytale => w_fairytale w
  | shamanic => w_shamanic w
  end.

Definition wmap (f : Regime → num) : Weights :=
  {| w_horror := f horror; w_trickster := f trickster; w_thriller := f thriller;
     w_fairytale := f fairytale; w_shamanic := f shamanic |}.

Definition uniform : Weights := wmap (λ _, Fin 0.2).

(** [normalizeWeights]; both callers pass all five weights. *)
Definition normalizeWeights (w : Weights) : Weights :=
  let sum := fold_left (λ a k, add a (or0 (wget w k))) REGIME_LIST (Fin 0) in
  if le sum (Fin 0) then uniform
  else wmap (λ k, div (wget w k) sum).

(** [x || 0] on a number that may be absent. *)
Definition orZero (o : option num) : num := from_option or0 (Fin 0) o.

(** [x || ""] on a string that may be absent. *)
Definition orEmpty (o : option string) : string := default "" o.

Definition when (c : bool) (a b : Q) : num := Fin (if c then a else b).

(** [instantRegimeWeights]. *)
Definition instantRegimeWeights (s : State) : Weights :=
  let varSeis := orZero (s_var s !! "seismic") in
  let varTilt := orZero (s_var s !! "tilt") in
  let trendSeis := orZero (s_trend s !! "seismic") in
  let tiltBin := orEmpty (s_bins s !! "tilt") in
  let tempBin := orEmpty (s_bins s !! "temp") in
  let mood := orEmpty (getTag (s_NCV s) "mood") in
  let pace := orEmpty (getTag (s_NCV s) "pace") in
  let horror :=
    add (add (add (Fin 0) (when (gt varSeis (Fin 0.006)) 1 0))
             (when (String.eqb tempBin "cool") 0.3 0))
        (when (String.eqb mood "strained") 0.5 0) in
  let trickster :=
    add (add (add (Fin 0) (when (gt varTilt (Fin 0.0008)) 0.6 0))
             (when (String.eqb pace "steady") 0.3 0))
        (when (String.eqb tiltBin "shift") 0.3 0) in
  let thriller :=
    add (add (add (Fin 0) (when (gt varSeis (Fin 0.004)) 0.7 0))
             (when (gt trendSeis (Fin 0.01)) 0.5 0))
        (when (String.eqb pace "fast") 0.3 0) in
  let fairytale :=
    add (add (Fin 0) (when (lt varSeis (Fin 0.002)) 0.7 0))
        (when (String.eqb pace "calm") 0.3 0) in
  let shamanic :=
    add (add (add (Fin 0) (when (String.eqb tiltBin "shear") 0.7 0))
             (when (String.eqb tempBin "warm") 0.2 0.1))
        (when (lt trendSeis (Fin (-0.01))) 0.3 0) in
  normalizeWeights
    {| w_horror := horror; w_trickster := trickster; w_thriller := thriller;
       w_fairytale := fairytale; w_shamanic := shamanic |}.

(** [mixWeights]. *)
Definition mixWeights (prev now : Weights) (inertia : num) : Weights :=
  normalizeWeights
    (wmap (λ k, add (mul inertia (wget prev k)) (mul (sub (Fin 1) inertia) (wget now k)))).

(** [topRegime]: the first regime of the list with the largest weight. *)
Definition topRegime (w : Weights) : Regime :=
  fold_left (λ best k, if gt (wget w k) (wget w best) then k else best) REGIME_LIST horror.

(** [allowedBridge]. *)
Definition allowedBridge (prev next : Regime) : option string :=
  if bool_decide (prev = next) then None
  else
    match ALLOWED_BRIDGES !! (regimeName prev +:+ "->" +:+ regimeName next) with
    | Some "" | None => None
    | Some b => Some b
    end.

(** ** Beat selection with scoring and constraints *)

Definition includes (l : list string) (x : string) : bool := bool_decide (x ∈ l).

Definition inPalette (regime : Regime) (fn : string) : bool :=
  let palette := PALETTE regime in
  includes (movement palette) fn || includes (environment palette) fn
  || includes (challenge palette) fn || includes (support palette) fn
  || includes (maintenance palette) fn || includes (reflection palette) fn.

(** [if (fn === name) score += bonus]. *)
Definition bonus (fn name : string) (b : num) (score : num) : num :=
  if String.eqb fn name then add score b else score.

(** [scoreBeat]. *)
Definition scoreBeat (fn : string) (regime : Regime) (s : State) : num :=
  let score := when (inPalette regime fn) 1.0 0.2 in
  let vSeis := orZero (s_var s !! "seismic") in
  let vTilt := orZero (s_var s !! "tilt") in
  let trendSeis := orZero (s_trend s !! "seismic") in
  let lowLight :=
    bool_decide (getTag (s_NCV s) "time" = Some "dusk")
    || bool_decide (getTag (s_NCV s) "time" = Some "night") in
  let score := bonus fn "fn.stalked" (when lowLight 0.6 0.1) score in
  let score := bonus fn "fn.cross_danger" (when (gt vSeis (Fin 0.004)) 0.5 0.0) score in
  let score := bonus fn "fn.ascend" (when (gt vTilt (Fin 0.001)) 0.4 0.0) score in
  let score := bonus fn "fn.descend" (when (lt trendSeis (Fin (-0.01))) 0.3 0.0) score in
  let score :=
    bonus fn "fn.find_marker" (when (bool_decide (s_bins s !! "tilt" = Some "shift")) 0.3 0.0) score in
  let score := bonus fn "fn.ordeal_dark" (when (lowLight && gt vSeis (Fin 0.006)) 0.6 0.0) score in
  score.

(** [Array.from(new Set(l))]: the first occurrence of each element, in order. *)
Fixpoint uniq (seen l : list string) : list string :=
  match l with
  | [] => []
  | x :: r => if includes seen x then uniq seen r else x :: uniq (x :: seen) r
  end.

Definition ALL_BEATS (regime : Regime) : list string :=
  let p := PALETTE regime in
  uniq [] (movement p ++ environment p ++ challenge p ++ support p
           ++ maintenance p ++ reflection p).

(** [arr.sort((a, b) => b.sc - a.sc)]: the sort is stable, and a comparator
    value that is NaN counts as 0.  [after a b] says the comparator puts [a]
    strictly after [b]. *)
Definition after (a b : string * num) : bool := gt (sub b.2 a.2) (Fin 0).

Fixpoint insertSorted (x : string * num) (l : list (string * num)) : list (string * num) :=
  match l with
  | [] => [x]
  | y :: r => if after y x then x :: l else y :: insertSorted x r
  end.

Definition sortScored (l : list (string * num)) : list (string * num) :=
  fold_left (λ acc x, insertSorted x acc) l [].

(** [recentBeats.slice(-4)]. *)
Definition lastN {A} (n : nat) (l : list A) : list A := drop (length l - n) l.

(** The loop that takes beats from the sorted list, applying their effects. *)
Fixpoint takeBeats (want : nat) (scored : list (string * num))
    (out : list string) (tokens : gset string) : list string * gset string :=
  match scored with
  | [] => (out, tokens)
  | (fn, _) :: rest =>
      if (want <=? length out)%nat then (out, tokens)
      else takeBeats want rest (out ++ [fn]) (applyGives tokens (givesOf fn))
  end.

Definition feasibleBeats (regime : Regime) (tokens : gset string) : list string :=
  filter (λ fn, hasAll tokens (needsOf fn) = true) (ALL_BEATS regime).

Definition scoredBeats (regime : Regime) (s : State) (tokens : gset string)
    (recentBeats : list string) : list (string * num) :=
  sortScored
    ((λ fn, let sc := scoreBeat fn regime s in
            (fn, if includes (lastN 4 recentBeats) fn then mul sc (Fin 0.4) else sc))
       <$> feasibleBeats regime tokens).

(** [chooseBeatsPlanned]: the beats chosen and the token set it leaves. *)
Definition chooseBeatsPlanned (regime : Regime) (s : State) (tokens : gset string)
    (recentBeats : list string) (want : nat) : list string * gset string :=
  takeBeats want (scoredBeats regime s tokens recentBeats) [] tokens.

(** ** Side-quest mini-graph *)

Inductive NodeId : Type := SQ_threshold | SQ_trials | SQ_inmost | SQ_boon | SQ_exit.

#[global] Instance NodeId_eq_dec : EqDecision NodeId.
Proof. solve_decision. Defined.

Definition SQ_EDGES (n : NodeId) : list NodeId :=
  match n with
  | SQ_threshold => [SQ_trials]
  | SQ_trials => [SQ_trials; SQ_inmost]
  | SQ_inmost => [SQ_boon]
  | SQ_boon => [SQ_exit]
  | SQ_exit => []
  end.

(** The [while] loop of [pickSideQuestPath]; [fuel] is [steps - i]. *)
Fixpoint sideQuestLoop (fuel i : nat) (sList : list State) (node : NodeId)
    (path : list NodeId) : list NodeId :=
  match fuel with
  | O => path
  | S fuel' =>
      if bool_decide (node = SQ_exit) then path
      else
        let s := if bool_decide (length sList = 0) then None
                 else sList !! Nat.min i (length sList - 1) in
        let v := from_option (λ s, orZero (s_var s !! "seismic")) (Fin 0) s in
        let node' :=
          if bool_decide (node = SQ_trials) && gt v (Fin 0.006) then SQ_inmost
          else default SQ_exit (head (SQ_EDGES node)) in
        sideQuestLoop fuel' (S i) sList node' (path ++ [node])
  end.

Definition pickSideQuestPath (steps : nat) (sList : list State) : list NodeId :=
  let path := sideQuestLoop steps 0 sList SQ_threshold [] in
  if bool_decide (SQ_exit ∈ path) then path else path ++ [SQ_exit].

(** ** Ledger *)

Definition deriveLedger (idx : nat) (s : State) : string * string :=
  let timePhase := (idx mod 10)%nat in
  let time :=
    if (timePhase <? 3)%nat then "morning"
    else if (timePhase <? 7)%nat then "day"
    else if (timePhase <? 9)%nat then "dusk"
    else "night" in
  let terrain :=
    if gt (orZero (s_var s !! "seismic")) (Fin 0.006) then "rock"
    else if gt (orZero (s_var s !! "tilt")) (Fin 0.001) then "forest"
    else "road" in
  (time, terrain).

(** ** The component: rows, states, intents and [onGenerate] *)

(** Where a line of the narrative comes from: a fixed anchor, one of the two
    fixed gates ([fn.call], [fn.return]), a bridge, a beat of the planner, or
    an intent of the codebook.  The narrative shown is the list of the texts. *)
Inductive Origin : Type :=
  | Anchor
  | Gate (fn : string)
  | Bridge (id : string)
  | Beat (fn : string)
  | Intent (fn : string).

(** The function identifier a line was rendered from. *)
Definition originFn (o : Origin) : option string :=
  match o with
  | Gate fn | Beat fn | Intent fn => Some fn
  | Anchor | Bridge _ => None
  end.

#[global] Instance Origin_eq_dec : EqDecision Origin.
Proof. solve_decision. Defined.

Abbreviation Line := (Origin * string)%type.

Definition opening : string :=
  "Jane and Jill break camp at dawn beside the hydroelectric plant, thermoses steaming, turbines droning in the mist.".

Definition closing : string :=
  "After several days on the road they reach the cottage at the forest’s edge. A silhouetted figure opens the door and says, "
  +:+ String "034" "Are you ready?" +:+ String "034" "".

(** [if (line) out.push(line)]. *)
Definition pushLine (out : list Line) (o : Origin) (line : string) : list Line :=
  if String.eqb line "" then out else out ++ [(o, line)].

(** [a || b] on strings. *)
Definition orElse (a b : string) : string := if String.eqb a "" then b else a.

(** The variables of the loop of [onGenerate].  [planned] is a ghost field:
    every beat the planner has chosen so far, in order ([recentBeats] keeps
    the last 16 of them). *)
Record Loop := {
  out : list Line;
  prevWeights : Weights;
  prevRegime : Regime;
  tokens : gset string;
  recentBeats : list string;
  planned : list string
}.

(** [s.NCV = { ...(s.NCV || {}), time, terrain }]. *)
Definition withLedger (idx : nat) (s : State) : State :=
  let '(time, terrain) := deriveLedger idx s in
  {| raw := raw s; s_bins := s_bins s; s_trend := s_trend s; s_var := s_var s;
     s_setpoint := s_setpoint s; s_relative := s_relative s;
     s_NCV := <["terrain" := Some terrain]> (<["time" := Some time]> (s_NCV s)) |}.

(** [recentBeats.push(fn); if (recentBeats.length > 16) recentBeats.shift()]. *)
Definition remember (recent : list string) (fn : string) : list string :=
  let r := recent ++ [fn] in
  if (16 <? length r)%nat then tl r else r.

(** [if (bridge) out.push(BRIDGE_FNS[bridge])]; every bridge of
    [ALLOWED_BRIDGES] has its sentence in [BRIDGE_FNS]. *)
Definition pushBridge (out : list Line) (bridge : option string) : list Line :=
  match bridge with
  | Some b => out ++ [(Bridge b, default "undefined" (BRIDGE_FNS !! b))]
  | None => out
  end.

(** Side-quest steering of the regime of step [i]. *)
Definition steer (sqStart sqEnd : nat) (sqPath : list NodeId) (i : nat) (regime : Regime) : Regime :=
  if (sqStart <=? i)%nat && (i <? sqEnd)%nat then
    match sqPath !! (i - sqStart) with
    | Some SQ_inmost => shamanic
    | Some SQ_trials => if bool_decide (regime = fairytale) then trickster else regime
    | _ => regime
    end
  else regime.

Section Run.
Variable surfaces : list Surface.
Variable evalExpr : string → gmap string value → option bool.

(** The loop over the beats of one step. *)
Definition emitBeats (NCV : Tags) (beats : list string) (out : list Line)
    (recent : list string) : list Line * list string :=
  fold_left
    (λ '(out, recent) fn,
       (pushLine out (Beat fn) (pickSurfaceText surfaces fn NCV), remember recent fn))
    beats (out, recent).

(** The loop over [(intents[i] || []).slice(0, 1)]. *)
Definition emitExtra (NCV : Tags) (intents : list (list string)) (i : nat)
    (out : list Line) : list Line :=
  fold_left (λ out fn, pushLine out (Intent fn) (pickSurfaceText surfaces fn NCV))
    (take 1 (default [] (intents !! i))) out.

(** The body of the loop over the states. *)
Definition loopBody (sqStart sqEnd : nat) (sqPath : list NodeId)
    (intents : list (list string)) (st : Loop) (ix : nat * State) : Loop :=
  let i := ix.1 in
  let s := withLedger i ix.2 in
  let inst := instantRegimeWeights s in
  let mixed := mixWeights (prevWeights st) inst (Fin 0.7) in
  let classified := topRegime mixed in
  let out1 := pushBridge (out st) (allowedBridge (prevRegime st) classified) in
  let regime := steer sqStart sqEnd sqPath i classified in
  let '(beats, tokens') := chooseBeatsPlanned regime s (tokens st) (recentBeats st) 3 in
  let '(out2, recent') := emitBeats (s_NCV s) beats out1 (recentBeats st) in
  let out3 := emitExtra (s_NCV s) intents i out2 in
  {| out := out3; prevWeights := mixed; prevRegime := regime; tokens := tokens';
     recentBeats := recent'; planned := planned st ++ beats |}.

(** [Math.floor(n * c)], with [c] taken exactly. *)
Definition floorMul (n : nat) (c : Q) : nat :=
  Z.to_nat (Qfloor (inject_Z (Z.of_nat n) * c)).

Definition sqStartOf (states : list State) : nat := floorMul (length states) 0.15.
Definition sqEndOf (states : list State) : nat := floorMul (length states) 0.85.

Definition sqPathOf (states : list State) : list NodeId :=
  let sqStart := sqStartOf states in
  let sqEnd := sqEndOf states in
  pickSideQuestPath (Nat.max 1 (sqEnd - sqStart)) (take (sqEnd - sqStart) (drop sqStart states)).

(** The variables of the loop before its first turn. *)
Definition initLoop : Loop :=
  {| out :=
       [(Anchor, opening);
        (Gate "fn.call",
         orElse (pickSurfaceText surfaces "fn.call" {["mood" := Some "reflective"]})
                "They shoulder their packs and check the map.")];
     prevWeights := uniform;
     prevRegime := topRegime uniform;
     tokens := {["left_road"]};
     recentBeats := [];
     planned := [] |}.

(** The loop run over the states. *)
Definition runLoop (states : list State) (intents : list (list string)) : Loop :=
  fold_left (loopBody (sqStartOf states) (sqEndOf states) (sqPathOf states) intents)
    (imap (λ i s, (i, s)) states) initLoop.

(** The lines pushed after the loop. *)
Definition finish (out : list Line) : list Line :=
  out ++ [(Gate "fn.return",
           orElse (pickSurfaceText surfaces "fn.return" ∅)
                  "A lane appears between trees. They walk the last hundred meters without a word.");
          (Anchor, closing)].

(** What a click on Generate leaves: the status message on missing data, or
    the narrative. *)
Inductive Status : Type :=
  | NoData
  | Generated (lines : list Line).

(** [onGenerate]. *)
Definition onGenerate (rows : list Row) (states : list State)
    (intents : list (list string)) : Status :=
  if bool_decide (length rows = 0) then NoData
  else Generated (finish (out (runLoop states intents))).

(** The [rows] of the component: the parsed table, cut down to the engaged
    columns when the first row has a key that is not a number. *)
Definition rowsOf (rawCSV : string) (engaged : gmap string bool) : list Row :=
  let parsed := parseCSV rawCSV in
  let keys := (map_to_list (default ∅ (head parsed))).*1 in
  let hasHeader := existsb (λ k, isNaN (StringToNumber k)) keys in
  if negb hasHeader then parsed
  else
    let cols := filter (λ k, engaged !! k = Some true) keys in
    (λ r : Row, list_to_map ((λ k, (k, cell r k)) <$> cols) : Row) <$> parsed.

(** The [states] of the component. *)
Definition statesOf (rows : list Row) (cb : Codebook) : result (list State) :=
  if bool_decide (length rows = 0) then Ok [] else computeStates rows cb.

(** The [intents] of the component. *)
Definition intentsOf (states : list State) (cb : Codebook) : list (list string) :=
  (λ s, selectFunctions evalExpr s cb) <$> states.

(** Rendering the component on a text and clicking Generate. *)
Definition generate (rawCSV : string) (engaged : gmap string bool) (cb : Codebook)
    : result Status :=
  let rows := rowsOf rawCSV engaged in
  bind (statesOf rows cb) (λ states,
    Ok (onGenerate rows states (intentsOf states cb))).

(** The narrative as shown: the texts of the lines. *)
Definition narrative (lines : list Line) : list string := lines.*2.
End Run.

(** The tables and the functions that read them are unfolded on request only. *)
#[global] Arguments needsOf : simpl never.
#[global] Arguments givesOf : simpl never.
#[global] Arguments pickSurfaceText : simpl never.
#[global] Arguments scoreBeat : simpl never.
#[global] Arguments ALL_BEATS : simpl never.
#[global] Arguments feasibleBeats : simpl never.
#[global] Arguments scoredBeats : simpl never.
#[global] Arguments chooseBeatsPlanned : simpl never.
#[global] Arguments normalizeWeights : simpl never.
#[global] Arguments instantRegimeWeights : simpl never.
#[global] Arguments mixWeights : simpl never.
#[global] Arguments topRegime : simpl never.
#[global] Arguments allowedBridge : simpl never.
#[global] Arguments withLedger : simpl never.
#[global] Arguments steer : simpl never.

(** ** Presets *)

Definition nl : string := String "010" "".

(** [PRESETS.geology]. *)
Definition geologyChannels : list string := ["seismic"; "tilt"; "gas_flux"; "temp"].

Definition geologySampleCSV : string :=
  "seismic,tilt,gas_flux,temp" +:+ nl +:+
  "0.005,0.02,400,85" +:+ nl +:+
  "0.006,0.02,405,86" +:+ nl +:+
  "0.009,0.03,420,88" +:+ nl +:+
  "0.004,0.02,398,84" +:+ nl +:+
  "0.012,0.04,460,90" +:+ nl +:+
  "0.003,0.02,390,83" +:+ nl.

(** [Object.fromEntries(channels.map((c) => [c, true]))]. *)
Definition engagedAll (channels : list string) : gmap string bool :=
  list_to_map ((λ c, (c, true)) <$> channels).

End App.

(** ** Sample data

    The codebooks and [surfaces.json] are data files outside the sources
    verified here; the development takes them as parameters.  The values
    below are stand-ins used to run the definitions on concrete inputs. *)

Module Samples.
Import JS Engine App.

Definition mkBins (l : list (string * Q)) : list Bin :=
  (λ p, {| id := p.1; max := Fin p.2 |}) <$> l.

(** A codebook shaped like the geology preset: four channels, each binned. *)
Definition geologyLike : Codebook :=
  {| entity := "geology";
     channels := geologyChannels;
     windows := Some {| w_trend := Fin 5; w_variance := Fin 5 |};
     bins := list_to_map [
       ("seismic", mkBins [("calm", 0.004%Q); ("active", 0.008%Q); ("violent", 1%Q)]);
       ("tilt", mkBins [("level", 0.025%Q); ("shift", 0.035%Q); ("shear", 1%Q)]);
       ("gas_flux", mkBins [("low", 400%Q); ("high", 100000%Q)]);
       ("temp", mkBins [("cool", 84%Q); ("warm", 1000%Q)])];
     ncv := Some [
       ("mood", {| from := "seismic.var"; map := [("high", "strained"); ("low", "reflective")] |});
       ("pace", {| from := "seismic.trend"; map := [("up", "fast"); ("flat", "steady"); ("down", "calm")] |})];
     thresholds := Some [
       {| cond := "seismic.bin == 'violent'"; then_ := ["fn.near_miss"] |}] |}.

(** The same codebook with another variance window. *)
Definition geologyLikeVar9 : Codebook :=
  {| entity := entity geologyLike; channels := channels geologyLike;
     windows := Some {| w_trend := Fin 5; w_variance := Fin 9 |};
     bins := bins geologyLike; ncv := ncv geologyLike;
     thresholds := thresholds geologyLike |}.

(** A codebook that tracks a channel it has no bins for. *)
Definition unbinned : Codebook :=
  {| entity := "geology";
     channels := ["seismic"];
     windows := Some {| w_trend := Fin 5; w_variance := Fin 5 |};
     bins := ∅;
     ncv := Some [];
     thresholds := Some [] |}.

(** A state whose tilt is in the [shear] bin, and nothing else. *)
Definition shearState : State :=
  {| raw := ∅; s_bins := {["tilt" := "shear"]}; s_trend := ∅; s_var := ∅;
     s_setpoint := ∅; s_relative := ∅; s_NCV := ∅ |}.

(** An evaluator that finds every expression true. *)
Definition evalTrue (e : string) (env : gmap string value) : option bool := Some true.

(** A surface table whose entry for [fn.road_walk] has an empty text. *)
Definition silentRoad : list Surface :=
  [ {| b_function := Some "fn.road_walk"; b_mood := None; b_pov := None;
       b_time := None; b_terrain := None; text := "" |} ].

End Samples.

(** ** Observations

    Notions used to state the properties: what a number is worth, the tokens
    a list of beats grants, the state of the loop after some steps. *)

Module Obs.
Import JS Engine App.

(** [x] is the finite number [q]. *)
Definition worth (x : num) (q : Q) : Prop :=
  match x with
  | Fin p => p == q
  | _ => False
  end.

(** The sum of the five weights, in the order of [REGIME_LIST]. *)
Definition wsum (w : Weights) : num :=
  fold_left (λ a k, add a (wget w k)) REGIME_LIST (Fin 0).

(** A finite number that is not negative. *)
Definition nonneg (x : num) : Prop := ∃ q, x = Fin q ∧ (0 <= q)%Q.

(** Five finite weights. *)
Definition mkW (a b c d e : Q) : Weights :=
  {| w_horror := Fin a; w_trickster := Fin b; w_thriller := Fin c;
     w_fairytale := Fin d; w_shamanic := Fin e |}.

(** Every weight is a finite number, none negative. *)
Definition finiteW (w : Weights) : Prop := ∀ k, nonneg (wget w k).

(** The tokens a beat requires and grants, as lists. *)
Definition needsList (fn : string) : list string := default [] (needsOf fn).
Definition givesList (fn : string) : list string := default [] (givesOf fn).

(** The token set after the beats [bs] have been emitted from [T]. *)
Definition grantAll (T : gset string) (bs : list string) : gset string :=
  fold_left (λ acc fn, applyGives acc (givesOf fn)) bs T.

Section Run.
Variable surfaces : list Surface.

(** The variables of the loop after its first [n] turns. *)
Definition runPrefix (n : nat) (states : list State) (intents : list (list string)) : Loop :=
  fold_left (loopBody surfaces (sqStartOf states) (sqEndOf states) (sqPathOf states) intents)
    (take n (imap (λ i s, (i, s)) states)) (initLoop surfaces).

(** The regime the classifier gives step [i] in loop state [st], before
    side-quest steering. *)
Definition classified (st : Loop) (i : nat) (s : State) : Regime :=
  topRegime (mixWeights (prevWeights st) (instantRegimeWeights (withLedger i s)) (Fin 0.7)).

(** The regime step [i] plans its beats with. *)
Definition planRegime (states : list State) (st : Loop) (i : nat) (s : State) : Regime :=
  steer (sqStartOf states) (sqEndOf states) (sqPathOf states) i (classified st i s).

(** The beats step [i] chooses. *)
Definition stepBeats (states : list State) (st : Loop) (i : nat) (s : State) : list string :=
  (chooseBeatsPlanned (planRegime states st i s) (withLedger i s) (tokens st) (recentBeats st) 3).1.

(** The lines of a bridge, of the beats of a step, and of its extra intent. *)
Definition bridgeLines (bridge : option string) : list Line := pushBridge [] bridge.

Definition beatLines (NCV : Tags) (beats : list string) : list Line :=
  (emitBeats surfaces NCV beats [] []).1.

Definition extraLines (NCV : Tags) (intents : list (list string)) (i : nat) : list Line :=
  emitExtra surfaces NCV intents i [].
End Run.

(** How many lines of a narrative were rendered from the function [fn]. *)
Definition countFn (fn : string) (lines : list Line) : nat :=
  length (filter (λ l : Line, originFn l.1 = Some fn) lines).

(** The beats of the planner that show in a narrative, in order. *)
Definition beatsShown (lines : list Line) : list string :=
  omap (λ l : Line, match l.1 with Beat fn => Some fn | _ => None end) lines.

(** Token gating of a sequence of emitted beats from the seed [init]: what a
    beat needs is in the seed or granted by a beat emitted before it. *)
Definition gated (init : gset string) (l : list string) : Prop :=
  ∀ k b t, l !! k = Some b → t ∈ needsList b →
    t ∈ init ∨ ∃ j b', j < k ∧ l !! j = Some b' ∧ t ∈ givesList b'.

(** The beats that [scoreBeat] gives a bonus of their own. *)
Definition bonusBeats : list string :=
  ["fn.stalked"; "fn.cross_danger"; "fn.ascend"; "fn.descend"; "fn.find_marker";
   "fn.ordeal_dark"].

(** The base score of a beat in a regime. *)
Definition baseScore (regime : Regime) (fn : string) : Q :=
  if inPalette regime fn then 1.0 else 0.2.

(** Two codebooks that differ at most in [windows.variance]. *)
Definition sameButVariance (a b : Codebook) : Prop :=
  entity a = entity b ∧ channels a = channels b ∧ bins a = bins b ∧
  ncv a = ncv b ∧ thresholds a = thresholds b ∧
  w_trend <$> windows a = w_trend <$> windows b.

(** Every tracked channel has a bin list with at least one bin. *)
Definition allBinned (cb : Codebook) : Prop :=
  ∀ ch, ch ∈ channels cb → ∃ bs, bins cb !! ch = Some bs ∧ bs ≠ [].

(** What the loop keeps true of its tokens and of the beats emitted so far. *)
Definition tokenInv (st : Loop) : Prop :=
  (∀ t, t ∈ tokens st ↔ (t ∈ ({["left_road"]} : gset string) ∨
                          ∃ fn, fn ∈ planned st ∧ t ∈ givesList fn)) ∧
  gated {["left_road"]} (planned st) ∧
  beatsShown (out st) `sublist_of` planned st.


(** No threshold rule of the codebook emits one of the two gate functions. *)
Definition noGateIntents (cb : Codebook) : Prop :=
  ∀ rule, rule ∈ default [] (thresholds cb) →
    ¬ ("fn.call" ∈ then_ rule) ∧ ¬ ("fn.return" ∈ then_ rule).

(** The two functions rendered by the fixed gate lines. *)
Definition gateFns : list string := ["fn.call"; "fn.return"].

(** The lines of a text, the fields of its first line, and whether
    [parseCSV] takes that line for a header. *)
Definition csvLines (text : string) : list string := splitLines (trim text).

Definition csvHeaders (text : string) : list string :=
  trim <$> split "," (hd "" (csvLines text)).

Definition hasHeader (text : string) : bool := existsb header_like (csvHeaders text).

(** [Number(r[key]) || 0]. *)
Definition cellNum (key : string) (r : Row) : num := or0 (Number (cell r key)).

(** The values [rolling] works on: those of the rows of its window. *)
Definition windowOf (rows : list Row) (idx : nat) (n : num) (key : string) : list num :=
  let from := sliceStart (max0 (add (sub (of_nat idx) n) (Fin 1))) (length rows) in
  cellNum key <$> take (S idx - from) (drop from rows).

(** The mean, the variance and the trend [rolling] takes of its values. *)
Definition statsOf (arr : list num) : Roll :=
  let len := of_nat (length arr) in
  let mean := div (sum arr) len in
  {| mean := mean;
     variance := div (fold_left (λ a b, add a (mul (sub b mean) (sub b mean))) arr (Fin 0)) len;
     trend := if (1 <? length arr)%nat
              then sub (default NaN (last arr)) (default NaN (head arr))
              else Fin 0 |}.

(** The label an NCV rule gives a state: the label paired with the tag it
    reads, or the tag itself when no pair matches. *)
Definition resolveTag (s : State) (spec : NcvSpec) : option string :=
  let tag := sourceTag s (from spec) in
  match findPair (map spec) tag with
  | Some p => Some p.2
  | None => tag
  end.

(** The sample table, parsed. *)
Definition rows_sample : list Row := parseCSV geologySampleCSV.

(** The rules of a codebook, and their names. *)
Definition ncvRules (cb : Codebook) : list (string * NcvSpec) := default [] (ncv cb).

(** The score [chooseBeatsPlanned] sorts a beat by: [scoreBeat], times 0.4
    when the beat is one of the last four emitted. *)
Definition planScore (regime : Regime) (s : State) (recentBeats : list string)
    (fn : string) : num :=
  let sc := scoreBeat fn regime s in
  if includes (lastN 4 recentBeats) fn then mul sc (Fin 0.4) else sc.

(** A scored list in which no entry is followed by a higher score. *)
Fixpoint descending (l : list (string * num)) : Prop :=
  match l with
  | [] => True
  | a :: r => Forall (λ b, le b.2 a.2 = true) r ∧ descending r
  end.

(** The beats [chooseBeatsPlanned] returns. *)
Definition chosen (regime : Regime) (s : State) (tokens : gset string)
    (recentBeats : list string) (want : nat) : list string :=
  (chooseBeatsPlanned regime s tokens recentBeats want).1.

(** A state whose seismic variance is above the 0.006 of the side quest. *)
Definition loudState : State :=
  {| raw := ∅; s_bins := ∅; s_trend := ∅; s_var := {["seismic" := Fin 0.01]};
     s_setpoint := ∅; s_relative := ∅; s_NCV := ∅ |}.

(** No state of the list has a seismic variance above 0.006. *)
Definition quiet (sList : list State) : Prop :=
  ∀ s, s ∈ sList → gt (orZero (s_var s !! "seismic")) (Fin 0.006) = false.

(** The columns [rowsOf] keeps of a table with the keys [keys]. *)
Definition engagedCols (engaged : gmap string bool) (keys : list string) : list string :=
  filter (λ k, engaged !! k = Some true) keys.

End Obs.

(** * Properties *)

Import JS Engine App Samples Obs.

Example number_samples :
  JS.StringToNumber "0.005" = JS.Fin 0.005 ∧
  JS.StringToNumber " 42 " = JS.Fin 42 ∧
  JS.StringToNumber "" = JS.Fin 0 ∧
  JS.StringToNumber "-1.5e2" = JS.Fin (-150) ∧
  JS.StringToNumber ".5" = JS.Fin 0.5 ∧
  JS.StringToNumber "0x1F" = JS.Fin 31 ∧
  JS.StringToNumber "value" = JS.NaN ∧
  JS.StringToNumber "1e" = JS.NaN ∧
  JS.StringToNumber "." = JS.NaN ∧
  JS.StringToNumber "-Infinity" = JS.NInf.
Proof. repeat split; reflexivity. Qed.

Example split_samples :
  JS.split "," "a,,b" = ["a"; ""; "b"] ∧
  JS.split "," "" = [""] ∧
  JS.splitLines ("a" +:+ String "013" (String "010" "b") +:+ String "010" "") = ["a"; "b"; ""] ∧
  JS.trim "  x y  " = "x y" ∧
  JS.endsWith "seismic.var" ".var" = true ∧
  JS.startsWith "setpoint.temp" "setpoint." = true.
Proof. repeat split; reflexivity. Qed.

(** ** The planner: what it can choose *)

Section Planner.
Implicit Types (T : gset string) (fn t : string) (l bs : list string).

Lemma uniq_elem seen l fn : fn ∈ uniq seen l → fn ∈ l.
Proof.
  revert seen. induction l as [|x r IH]; intros seen; simpl; [done|].
  destruct (includes seen x).
  - intros H. right. by apply (IH seen).
  - rewrite !elem_of_cons. intros [->|H]; [by left|right; by apply (IH (x :: seen))].
Qed.

Lemma ALL_BEATS_inPalette regime fn : fn ∈ ALL_BEATS regime → inPalette regime fn = true.
Proof.
  intros H%uniq_elem. unfold inPalette, includes.
  rewrite !elem_of_app in H.
  rewrite !orb_true_iff, !bool_decide_eq_true. tauto.
Qed.

Lemma elem_of_insertSorted (x y : string * num) (l : list (string * num)) :
  y ∈ insertSorted x l ↔ y = x ∨ y ∈ l.
Proof.
  induction l as [|z r IH]; simpl.
  - set_solver.
  - destruct (after z x); rewrite !elem_of_cons; [tauto|]. rewrite IH. tauto.
Qed.

Lemma elem_of_sortScored (y : string * num) (l : list (string * num)) :
  y ∈ sortScored l ↔ y ∈ l.
Proof.
  unfold sortScored.
  assert (∀ acc, y ∈ fold_left (λ acc x, insertSorted x acc) l acc ↔ y ∈ l ∨ y ∈ acc) as Hacc.
  { induction l as [|x r IH]; intros acc; simpl.
    - rewrite elem_of_nil. tauto.
    - rewrite IH, elem_of_insertSorted, elem_of_cons. tauto. }
  rewrite Hacc, elem_of_nil. tauto.
Qed.

Lemma scoredBeats_feasible regime s T recent fn :
  fn ∈ (scoredBeats regime s T recent).*1 → fn ∈ feasibleBeats regime T.
Proof.
  unfold scoredBeats. rewrite list_elem_of_fmap.
  intros [[f sc] [-> H]]. rewrite elem_of_sortScored in H.
  apply list_elem_of_fmap in H as [g [Heq Hg]]. simpl. by inversion Heq; subst.
Qed.

Lemma feasibleBeats_spec regime T fn :
  fn ∈ feasibleBeats regime T ↔ hasAll T (needsOf fn) = true ∧ fn ∈ ALL_BEATS regime.
Proof. unfold feasibleBeats. by rewrite list_elem_of_filter. Qed.

(** The loop takes the first [want] beats of the sorted list and grants
    their tokens. *)
Lemma takeBeats_eq want (scored : list (string * num)) out T :
  takeBeats want scored out T =
    (out ++ take (want - length out) scored.*1,
     grantAll T (take (want - length out) scored.*1)).
Proof.
  revert out T. induction scored as [|[fn sc] r IH]; intros out T.
  - cbn. by rewrite take_nil, app_nil_r.
  - cbn [takeBeats]. destruct (Nat.leb_spec want (length out)) as [Hle|Hlt].
    + replace (want - length out) with 0 by lia. by rewrite app_nil_r.
    + rewrite IH, length_app. cbn [length].
      destruct (want - length out) as [|k] eqn:Hk; [lia|].
      replace (want - (length out + 1)) with k by lia.
      rewrite fmap_cons. cbn [take fst]. by rewrite <- app_assoc.
Qed.

Lemma chooseBeatsPlanned_eq regime s T recent want :
  chooseBeatsPlanned regime s T recent want =
    (take want (scoredBeats regime s T recent).*1,
     grantAll T (take want (scoredBeats regime s T recent).*1)).
Proof.
  unfold chooseBeatsPlanned. rewrite takeBeats_eq. simpl. by rewrite Nat.sub_0_r.
Qed.

Lemma chosen_feasible regime s T recent want fn :
  fn ∈ (chooseBeatsPlanned regime s T recent want).1 → fn ∈ feasibleBeats regime T.
Proof.
  rewrite chooseBeatsPlanned_eq. simpl. intros H.
  apply (scoredBeats_feasible regime s T recent).
  apply elem_of_take in H as (i & Hi & _). by eapply list_elem_of_lookup_2.
Qed.

Lemma chosen_length regime s T recent want :
  length (chooseBeatsPlanned regime s T recent want).1 ≤ want.
Proof. rewrite chooseBeatsPlanned_eq. simpl. rewrite length_take. lia. Qed.

(** Tokens are only added. *)
Lemma applyGives_spec T gs t :
  t ∈ applyGives T gs ↔ t ∈ T ∨ t ∈ default [] gs.
Proof.
  destruct gs as [ts|]; cbv beta iota delta [applyGives from_option Datatypes.id].
  - revert T. induction ts as [|x r IH]; intros T; cbn [fold_left].
    + rewrite elem_of_nil. tauto.
    + rewrite IH, elem_of_union, elem_of_singleton, elem_of_cons. tauto.
  - rewrite elem_of_nil. tauto.
Qed.

Lemma grantAll_spec T bs t :
  t ∈ grantAll T bs ↔ t ∈ T ∨ ∃ fn, fn ∈ bs ∧ t ∈ givesList fn.
Proof.
  unfold grantAll. revert T. induction bs as [|b r IH]; intros T; cbn [fold_left].
  - split; [by left|]. intros [?|(fn & Hfn & _)]; [done|]. by apply elem_of_nil in Hfn.
  - rewrite IH, applyGives_spec. unfold givesList. split.
    + intros [[?|?]|(fn & ? & ?)]; [by left|right..].
      * exists b. split; [by left|done].
      * exists fn. split; [by right|done].
    + intros [?|(fn & [->|?]%elem_of_cons & ?)]; [by left; left|by left; right|].
      right. by exists fn.
Qed.

Lemma hasAll_spec T fn :
  hasAll T (needsOf fn) = true ↔ ∀ t, t ∈ needsList fn → t ∈ T.
Proof.
  unfold needsList. destruct (needsOf fn) as [[|x r]|]; simpl.
  - split; [|done]. intros _ t Ht. by apply elem_of_nil in Ht.
  - rewrite andb_true_iff, bool_decide_eq_true, forallb_forall. split.
    + intros [Hx Hr] t [->|Ht]%elem_of_cons; [done|].
      apply list_elem_of_In, Hr in Ht. by apply bool_decide_eq_true in Ht.
    + intros H. split; [apply H; by left|].
      intros t Ht%list_elem_of_In. apply bool_decide_eq_true, H. by right.
  - split; [|done]. intros _ t Ht. by apply elem_of_nil in Ht.
Qed.
End Planner.

(** Decide a closed proposition by evaluation. *)
Ltac by_compute := refine (@bool_decide_unpack _ _ _); vm_compute; exact I.

(** ** Scores *)

Lemma worth_Fin q : worth (Fin q) q.
Proof. simpl. reflexivity. Qed.

Lemma bonus_grows fn name c (a b : Q) score q :
  (0 <= a)%Q → (0 <= b)%Q → score = Fin q →
  ∃ q', bonus fn name (when c a b) score = Fin q' ∧ (q <= q')%Q.
Proof.
  intros Ha Hb ->. unfold bonus, when.
  destruct (String.eqb fn name).
  - eexists. split; [reflexivity|]. rewrite Qred_correct. destruct c; lra.
  - exists q. split; [done|lra].
Qed.

Lemma scoreBeat_base fn regime s :
  ∃ q, scoreBeat fn regime s = Fin q ∧ (baseScore regime fn <= q)%Q.
Proof.
  unfold scoreBeat.
  set (s0 := when (inPalette regime fn) 1.0 0.2).
  assert (∃ q, s0 = Fin q ∧ (baseScore regime fn <= q)%Q) as (q0 & E0 & H0).
  { eexists. split; [reflexivity|]. unfold baseScore. lra. }
  cbv zeta.
  repeat
    match goal with
    | |- ∃ q, bonus fn ?name (when ?c ?a ?b) ?sc = Fin q ∧ _ =>
        let q' := fresh "q" in let E := fresh "E" in let H := fresh "H" in
        assert (∃ q, sc = Fin q ∧ (baseScore regime fn <= q)%Q) as (q' & E & H);
        [|destruct (bonus_grows fn name c a b sc q') as (? & -> & ?);
          [lra|lra|exact E|eexists; split; [reflexivity|lra]]]
    end.
  exists q0. by split.
Qed.

Lemma scoreBeat_plain fn regime s :
  fn ∉ bonusBeats → scoreBeat fn regime s = Fin (baseScore regime fn).
Proof.
  intros Hfn. unfold scoreBeat, bonus, bonusBeats in *.
  repeat
    match goal with
    | |- context [String.eqb fn ?name] =>
        destruct (String.eqb_spec fn name) as [->|_];
        [exfalso; apply Hfn; repeat first [by left | right]|]
    end.
  reflexivity.
Qed.

(** ** C1 *)

Lemma chosen_inPalette regime s T recent want fn :
  fn ∈ (chooseBeatsPlanned regime s T recent want).1 → inPalette regime fn = true.
Proof.
  intros H%chosen_feasible. apply feasibleBeats_spec in H as [_ H].
  by apply ALL_BEATS_inPalette.
Qed.

(** C1, as stated, fails: no state, token set, history or count makes the
    planner emit a beat outside the palette of the active regime. *)
Lemma C1_no_palette_crossing :
  ¬ ∃ regime s T recent want fn,
      fn ∈ (chooseBeatsPlanned regime s T recent want).1 ∧ inPalette regime fn = false.
Proof.
  intros (regime & s & T & recent & want & fn & Hin & Hout).
  apply chosen_inPalette in Hin. congruence.
Qed.

(** C1, amended: the score of a beat starts from 1.0 inside the palette of
    the active regime and from 0.2 outside of it, bonuses only add to it (so
    it is never zero), and a beat without a bonus of its own scores exactly
    its base; but the pool of the planner is the palette of the active regime,
    so every beat it emits belongs to that palette. *)
Theorem C1_planner_stays_in_palette :
  (∀ fn regime s,
     ∃ q, scoreBeat fn regime s = Fin q ∧ (baseScore regime fn <= q)%Q ∧ (0 < q)%Q) ∧
  (∀ fn regime s, fn ∉ bonusBeats → scoreBeat fn regime s = Fin (baseScore regime fn)) ∧
  (∀ regime fn, baseScore regime fn = if inPalette regime fn then 1.0%Q else 0.2%Q) ∧
  (∀ regime s T recent want fn,
     fn ∈ (chooseBeatsPlanned regime s T recent want).1 →
     fn ∈ ALL_BEATS regime ∧ inPalette regime fn = true).
Proof.
  split; [|split; [|split]].
  - intros fn regime s. destruct (scoreBeat_base fn regime s) as (q & E & H). exists q.
    split; [done|]. split; [done|]. unfold baseScore in H.
    destruct (inPalette regime fn); lra.
  - intros fn regime s Hfn. by apply scoreBeat_plain.
  - reflexivity.
  - intros regime s T recent want fn H. split; [|by eapply chosen_inPalette].
    apply chosen_feasible in H. by apply feasibleBeats_spec in H as [_ H].
Qed.

Lemma C1_planner_stays_in_palette_witness :
  "fn.road_walk" ∈ (chooseBeatsPlanned horror (emptyState ∅) {["left_road"]} [] 3).1 ∧
  "fn.road_walk" ∈ ALL_BEATS horror ∧ inPalette horror "fn.road_walk" = true.
Proof.
  assert ("fn.road_walk" ∈ (chooseBeatsPlanned horror (emptyState ∅) {["left_road"]} [] 3).1) as H.
  { by_compute. }
  split; [exact H|].
  exact (proj2 (proj2 (proj2 C1_planner_stays_in_palette)) horror (emptyState ∅) {["left_road"]} [] 3 "fn.road_walk" H).
Defined.

(** ** C4 *)

Lemma chosen_needs regime s T recent want fn t :
  fn ∈ (chooseBeatsPlanned regime s T recent want).1 → t ∈ needsList fn → t ∈ T.
Proof.
  intros H%chosen_feasible Ht. apply feasibleBeats_spec in H as [H _].
  by apply (proj1 (hasAll_spec T fn) H).
Qed.

(** C4, as stated, fails: a beat that needs a token missing from the token
    set the step starts with is never emitted in that step, whatever the
    beats emitted before it in the step grant. *)
Lemma C4_no_same_step_dependency :
  ¬ ∃ regime s T recent want fn t,
      fn ∈ (chooseBeatsPlanned regime s T recent want).1 ∧ t ∈ needsList fn ∧ t ∉ T.
Proof.
  intros (regime & s & T & recent & want & fn & t & Hin & Ht & HT).
  apply HT. by eapply chosen_needs.
Qed.

(** C4, amended: emitting a beat applies its effect tokens to the shared token
    set at once, but the feasible beats of a step are fixed before its first
    beat is emitted: every beat emitted in a step has its preconditions in the
    token set the step started with, and the tokens it grants serve the later
    steps.  So [fn.crossing], which needs the [in_trail] that [fn.trail_cut]
    grants, is not emitted in the step that emits [fn.trail_cut], and is
    emitted in the next one. *)
Theorem C4_effects_serve_later_steps :
  (∀ regime s T recent want,
     let r := chooseBeatsPlanned regime s T recent want in
     (∀ t, t ∈ r.2 ↔ (t ∈ T ∨ ∃ fn, fn ∈ r.1 ∧ t ∈ givesList fn)) ∧
     (∀ fn t, fn ∈ r.1 → t ∈ needsList fn → t ∈ T)) ∧
  (let s := emptyState ∅ in
   let r1 := chooseBeatsPlanned fairytale s {["left_road"]} [] 3 in
   let r2 := chooseBeatsPlanned fairytale s r1.2 r1.1 3 in
   "fn.trail_cut" ∈ r1.1 ∧ ¬ ("fn.crossing" ∈ r1.1) ∧ "fn.crossing" ∈ r2.1).
Proof.
  split.
  - intros regime s T recent want r. split.
    + intros t. subst r. rewrite chooseBeatsPlanned_eq. cbn [fst snd]. apply grantAll_spec.
    + intros fn t. by apply chosen_needs.
  - cbv zeta. repeat split.
    + by_compute.
    + by_compute.
    + by_compute.
Qed.

Lemma C4_effects_serve_later_steps_witness :
  "left_road" ∈ needsList "fn.trail_cut" ∧
  ("left_road" ∈ ({["left_road"]} : gset string)).
Proof.
  assert ("fn.trail_cut" ∈ (chooseBeatsPlanned fairytale (emptyState ∅) {["left_road"]} [] 3).1) as H.
  { by_compute. }
  assert ("left_road" ∈ needsList "fn.trail_cut") as Hn.
  { by_compute. }
  split; [exact Hn|].
  exact (proj2 (proj1 C4_effects_serve_later_steps fairytale (emptyState ∅) {["left_road"]} [] 3)
           "fn.trail_cut" "left_road" H Hn).
Defined.

(** ** The state deriver: when it throws and when it does not *)

Lemma foldM_throw {A B} (f : A → B → result A) (l : list B) (x : B) :
  x ∈ l → (∀ a, ∃ m, f a x = Throw m) → ∀ a, ∃ m, foldM f a l = Throw m.
Proof.
  intros Hx Hf. induction l as [|y r IH]; intros a.
  - by apply elem_of_nil in Hx.
  - cbn [foldM]. apply elem_of_cons in Hx as [<-|Hx].
    + destruct (Hf a) as [m ->]. by exists m.
    + destruct (f a y) as [a'|m]; cbn [bind]; [by apply IH|by exists m].
Qed.

Lemma foldM_ok {A B} (f : A → B → result A) (l : list B) :
  (∀ a x, x ∈ l → ∃ a', f a x = Ok a') → ∀ a, ∃ a', foldM f a l = Ok a'.
Proof.
  induction l as [|y r IH]; intros Hf a; cbn [foldM]; [by exists a|].
  destruct (Hf a y) as [a' ->]; [by left|]. cbn [bind].
  apply IH. intros a0 x Hx. apply Hf. by right.
Qed.

Lemma foldM_ext {A B} (f g : A → B → result A) (l : list B) :
  (∀ a x, f a x = g a x) → ∀ a, foldM f a l = foldM g a l.
Proof.
  intros Hfg. induction l as [|y r IH]; intros a; cbn [foldM]; [done|].
  rewrite Hfg. destruct (g a y); cbn [bind]; [apply IH|done].
Qed.

Lemma mapM_ok {A B} (f : A → result B) (l : list A) :
  (∀ x, x ∈ l → ∃ y, f x = Ok y) → ∃ ys, mapM f l = Ok ys ∧ length ys = length l.
Proof.
  induction l as [|x r IH]; intros Hf; cbn [mapM]; [by exists []|].
  destruct (Hf x) as [y ->]; [by left|]. cbn [bind].
  destruct IH as (ys & -> & Hlen); [intros z Hz; apply Hf; by right|].
  cbn [bind]. exists (y :: ys). split; [done|]. cbn [length]. by rewrite Hlen.
Qed.

Lemma mapM_ext {A B} (f g : A → result B) (l : list A) :
  (∀ x, f x = g x) → mapM f l = mapM g l.
Proof.
  intros Hfg. induction l as [|x r IH]; cbn [mapM]; [done|]. by rewrite Hfg, IH.
Qed.

Lemma binValue_ok (bs : list Bin) (v : num) : bs ≠ [] → ∃ b, binValue bs v = Ok b.
Proof.
  intros Hbs. unfold binValue. destruct (find _ bs) as [b|]; [by eexists|].
  apply last_is_Some in Hbs as [b ->]. by eexists.
Qed.

Lemma channelStep_throw rows idx win cb r ch :
  bins cb !! ch = None → ∀ s, ∃ m, channelStep rows idx win cb r s ch = Throw m.
Proof. intros Hch s. unfold channelStep. rewrite Hch. by eexists. Qed.

Lemma channelStep_ok rows idx win cb r ch s :
  (∃ bs, bins cb !! ch = Some bs ∧ bs ≠ []) → ∃ s', channelStep rows idx win cb r s ch = Ok s'.
Proof.
  intros (bs & Hch & Hbs). unfold channelStep. rewrite Hch.
  destruct (binValue_ok bs (or0 (Number (cell r ch))) Hbs) as [b ->]. cbn [bind]. by eexists.
Qed.

Lemma stateOf_ok rows cb idx r : allBinned cb → ∃ s, stateOf rows cb idx r = Ok s.
Proof.
  intros Hcb. unfold stateOf.
  destruct (foldM_ok (channelStep rows idx (window cb) cb r) (channels cb)) with (a := emptyState r)
    as [s ->].
  { intros a ch Hch. apply channelStep_ok. by apply Hcb. }
  cbn [bind]. by eexists.
Qed.

(** With bins for every tracked channel the deriver returns one state per row. *)
Lemma computeStates_ok rows cb :
  allBinned cb → ∃ states, computeStates rows cb = Ok states ∧ length states = length rows.
Proof.
  intros Hcb. unfold computeStates.
  destruct (mapM_ok (λ ir, stateOf rows cb ir.1 ir.2) (imap (λ i r, (i, r)) rows))
    as (ys & E & Hlen).
  { intros [i r] _. by apply stateOf_ok. }
  exists ys. split; [done|]. by rewrite Hlen, length_imap.
Qed.

(** ** C3 *)

(** C3 fails on the code: as soon as there is a row, a tracked channel that
    has no entry in [bins] makes [computeStates] throw (the loop of [binValue]
    iterates over [undefined]); no state is returned. *)
Theorem C3_missing_bins_throw rows cb ch :
  rows ≠ [] → ch ∈ channels cb → bins cb !! ch = None →
  ∃ msg, computeStates rows cb = Throw msg.
Proof.
  intros Hrows Hch Hbins. destruct rows as [|r rows]; [done|].
  unfold computeStates. cbn [imap mapM]. unfold stateOf at 1. cbn [fst snd].
  destruct (foldM_throw (channelStep (r :: rows) 0 (window cb) cb r) (channels cb) ch Hch)
    with (a := emptyState r) as [m ->].
  { by apply channelStep_throw. }
  cbn [bind]. by exists m.
Qed.

Lemma C3_missing_bins_throw_witness :
  ∃ msg, computeStates [∅] unbinned = Throw msg.
Proof.
  apply (C3_missing_bins_throw [∅] unbinned "seismic").
  - discriminate.
  - by_compute.
  - reflexivity.
Defined.

(** ** C8 *)

Lemma window_sameButVariance a b : sameButVariance a b → window a = window b.
Proof.
  intros (_ & _ & _ & _ & _ & Hw). unfold window.
  destruct (windows a), (windows b); by inversion Hw.
Qed.

(** C8: [computeStates] reads [windows.trend] only, so two codebooks that
    differ only in [windows.variance] give the same result on every table; and
    the one window it reads is the window of the rolling trend and of the
    rolling variance alike. *)
Theorem C8_variance_window_unread :
  (∀ rows a b, sameButVariance a b → computeStates rows a = computeStates rows b) ∧
  (∀ rows cb idx r s ch b,
     channelStep rows idx (window cb) cb r s ch = Ok b →
     s_trend b !! ch = Some (trend (rolling rows idx (window cb) ch)) ∧
     s_var b !! ch = Some (variance (rolling rows idx (window cb) ch))) ∧
  (∀ cb, window cb = from_option w_trend (Fin 5) (windows cb)).
Proof.
  split; [|split].
  - intros rows a b Hab. pose proof (window_sameButVariance a b Hab) as Hw.
    destruct Hab as (_ & Hch & Hbins & Hncv & _ & _).
    unfold computeStates. apply mapM_ext. intros [i r]. unfold stateOf. cbn [fst snd].
    rewrite Hw, Hch, Hncv.
    rewrite (foldM_ext (channelStep rows i (window b) a r) (channelStep rows i (window b) b r)).
    + done.
    + intros s ch. unfold channelStep. by rewrite Hbins.
  - intros rows cb idx r s ch b. unfold channelStep.
    destruct (bins cb !! ch) as [bs|]; [|done].
    destruct (binValue bs _) as [x|]; cbn [bind]; [|done].
    intros [= <-]. cbn [s_trend s_var]. by rewrite !lookup_insert_eq.
  - intros cb. unfold window. by destruct (windows cb).
Qed.

Lemma C8_variance_window_unread_witness :
  computeStates (parseCSV geologySampleCSV) geologyLike =
  computeStates (parseCSV geologySampleCSV) geologyLikeVar9.
Proof.
  apply (proj1 C8_variance_window_unread).
  repeat split; reflexivity.
Defined.

(** ** One turn of the loop *)

Section LoopBody.
Variable surfaces : list Surface.
Variable states : list State.
Variable intents : list (list string).

Lemma pushLine_app (out : list Line) o line : pushLine out o line = out ++ pushLine [] o line.
Proof. unfold pushLine. destruct (String.eqb line ""); by rewrite ?app_nil_r. Qed.

Lemma pushBridge_app (out : list Line) b : pushBridge out b = out ++ bridgeLines b.
Proof. unfold bridgeLines, pushBridge. destruct b; by rewrite ?app_nil_r. Qed.

Lemma emitBeats_eq NCV beats (out : list Line) recent :
  emitBeats surfaces NCV beats out recent =
    (out ++ beatLines surfaces NCV beats, fold_left remember beats recent).
Proof.
  unfold beatLines, emitBeats.
  assert (∀ out recent r0,
    fold_left (λ '(out, recent) fn,
       (pushLine out (Beat fn) (pickSurfaceText surfaces fn NCV), remember recent fn))
      beats (out, recent) =
    (out ++ (fold_left (λ '(out, recent) fn,
       (pushLine out (Beat fn) (pickSurfaceText surfaces fn NCV), remember recent fn))
      beats ([], r0)).1, fold_left remember beats recent)) as H.
  { induction beats as [|b r IH]; intros o rc r0; cbn [fold_left fst].
    - by rewrite app_nil_r.
    - rewrite (IH (pushLine o _ _) (remember rc b) (remember r0 b)).
      rewrite (IH (pushLine [] _ _) (remember r0 b) (remember r0 b)). cbn [fst].
      by rewrite (pushLine_app o), app_assoc. }
  apply H.
Qed.

Lemma emitExtra_eq NCV i (out : list Line) :
  emitExtra surfaces NCV intents i out = out ++ extraLines surfaces NCV intents i.
Proof.
  unfold extraLines, emitExtra. generalize (take 1 (default [] (intents !! i))).
  intros l. revert out. induction l as [|f r IH]; intros out; cbn [fold_left].
  - by rewrite app_nil_r.
  - rewrite (IH (pushLine out _ _)), (IH (pushLine [] _ _)).
    by rewrite (pushLine_app out), app_assoc.
Qed.

(** The loop variables after the turn for state [s] at index [i]. *)
Lemma loopBody_eq st i s :
  loopBody surfaces (sqStartOf states) (sqEndOf states) (sqPathOf states) intents st (i, s) =
    let NCV := s_NCV (withLedger i s) in
    let beats := stepBeats states st i s in
    {| out := out st ++ bridgeLines (allowedBridge (prevRegime st) (classified st i s))
                ++ beatLines surfaces NCV beats ++ extraLines surfaces NCV intents i;
       prevWeights := mixWeights (prevWeights st) (instantRegimeWeights (withLedger i s)) (Fin 0.7);
       prevRegime := planRegime states st i s;
       tokens := grantAll (tokens st) beats;
       recentBeats := fold_left remember beats (recentBeats st);
       planned := planned st ++ beats |}.
Proof.
  unfold loopBody, stepBeats, planRegime, classified. cbn [fst snd].
  rewrite chooseBeatsPlanned_eq. cbn [fst snd].
  rewrite emitBeats_eq, emitExtra_eq, pushBridge_app.
  cbv zeta. by rewrite <- !app_assoc.
Qed.

(** The loop after one more turn. *)
Lemma runPrefix_S n s :
  states !! n = Some s →
  runPrefix surfaces (S n) states intents =
    loopBody surfaces (sqStartOf states) (sqEndOf states) (sqPathOf states) intents
      (runPrefix surfaces n states intents) (n, s).
Proof.
  intros Hs. unfold runPrefix.
  rewrite (take_S_r _ _ (n, s)); [by rewrite fold_left_app|].
  by rewrite list_lookup_imap, Hs.
Qed.

Lemma runPrefix_ge n :
  length states ≤ n → runPrefix surfaces n states intents = runLoop surfaces states intents.
Proof.
  intros Hn. unfold runPrefix, runLoop. rewrite take_ge; [done|]. by rewrite length_imap.
Qed.

(** What holds before the first turn and is kept by every turn holds after
    any number of turns. *)
Lemma runPrefix_ind (P : Loop → Prop) :
  P (initLoop surfaces) →
  (∀ st i s, states !! i = Some s → P st →
     P (loopBody surfaces (sqStartOf states) (sqEndOf states) (sqPathOf states) intents st (i, s))) →
  ∀ n, P (runPrefix surfaces n states intents).
Proof.
  intros H0 Hstep n. induction n as [|n IH].
  - exact H0.
  - destruct (states !! n) as [s|] eqn:Hs.
    + rewrite (runPrefix_S n s Hs). by apply Hstep.
    + apply lookup_ge_None in Hs.
      rewrite runPrefix_ge by lia. rewrite <- (runPrefix_ge n) by lia. exact IH.
Qed.
End LoopBody.

(** ** The lines of one turn *)

Section Lines.
Variable surfaces : list Surface.

Lemma beatLines_cons NCV b r :
  beatLines surfaces NCV (b :: r) =
    pushLine [] (Beat b) (pickSurfaceText surfaces b NCV) ++ beatLines surfaces NCV r.
Proof.
  unfold beatLines at 1. unfold emitBeats. cbn [fold_left].
  change (fold_left _ r ?a) with (emitBeats surfaces NCV r a.1 a.2).
  by rewrite emitBeats_eq.
Qed.

Lemma elem_of_pushLine (l : Line) o line :
  l ∈ pushLine [] o line → l = (o, line) ∧ line ≠ "".
Proof.
  unfold pushLine. destruct (String.eqb_spec line "") as [->|Hne].
  - intros H. by apply elem_of_nil in H.
  - intros ->%list_elem_of_singleton. done.
Qed.

Lemma elem_of_beatLines NCV beats (l : Line) :
  l ∈ beatLines surfaces NCV beats →
  ∃ fn, fn ∈ beats ∧ l = (Beat fn, pickSurfaceText surfaces fn NCV) ∧ l.2 ≠ "".
Proof.
  induction beats as [|b r IH].
  - intros H. by apply elem_of_nil in H.
  - rewrite beatLines_cons, elem_of_app. intros [H|H].
    + apply elem_of_pushLine in H as [-> Hne]. exists b. split; [by left|done].
    + destruct (IH H) as (fn & Hfn & E & Hne). exists fn. split; [by right|done].
Qed.

Lemma elem_of_extraLines NCV intents i (l : Line) :
  l ∈ extraLines surfaces NCV intents i →
  ∃ fn, head (default [] (intents !! i)) = Some fn ∧ l.1 = Intent fn.
Proof.
  unfold extraLines, emitExtra. destruct (default [] (intents !! i)) as [|f r]; cbn.
  - intros H. by apply elem_of_nil in H.
  - intros H. apply elem_of_pushLine in H as [-> _]. by exists f.
Qed.

Lemma elem_of_bridgeLines b (l : Line) :
  l ∈ bridgeLines b → ∃ id, l.1 = Bridge id.
Proof.
  unfold bridgeLines, pushBridge. destruct b as [id|]; cbn.
  - intros ->%list_elem_of_singleton. by exists id.
  - intros H. by apply elem_of_nil in H.
Qed.

Lemma beatsShown_app l1 l2 : beatsShown (l1 ++ l2) = beatsShown l1 ++ beatsShown l2.
Proof. unfold beatsShown. apply omap_app. Qed.

Lemma beatsShown_none (lines : list Line) :
  (∀ l, l ∈ lines → ∀ fn, l.1 ≠ Beat fn) → beatsShown lines = [].
Proof.
  induction lines as [|[o t] r IH]; intros H; [done|].
  unfold beatsShown. cbn [omap list_omap fst].
  destruct o; try (apply IH; intros l Hl; apply H; by right).
  exfalso. by apply (H (Beat fn, t) ltac:(by left) fn).
Qed.

Lemma beatsShown_beatLines NCV beats :
  beatsShown (beatLines surfaces NCV beats) `sublist_of` beats.
Proof.
  induction beats as [|b r IH]; [done|].
  rewrite beatLines_cons, beatsShown_app. unfold pushLine at 1.
  destruct (String.eqb _ ""); cbn.
  - by apply sublist_cons.
  - by apply sublist_skip.
Qed.
End Lines.

(** ** C5 *)

Section Gating.
Variable surfaces : list Surface.
Variable states : list State.
Variable intents : list (list string).

Lemma tokenInv_init : tokenInv (initLoop surfaces).
Proof.
  split; [|split].
  - intros t. cbn [tokens planned initLoop]. split; [by left|].
    intros [?|(fn & Hfn & _)]; [done|]. by apply elem_of_nil in Hfn.
  - intros k b t Hk. cbn [planned initLoop] in Hk. by rewrite lookup_nil in Hk.
  - done.
Qed.

Lemma tokenInv_step st i s :
  tokenInv st →
  tokenInv (loopBody surfaces (sqStartOf states) (sqEndOf states) (sqPathOf states) intents st (i, s)).
Proof.
  intros (Htok & Hgate & Hshown). rewrite loopBody_eq. cbv zeta.
  set (beats := stepBeats states st i s).
  split; [|split]; cbn [tokens planned out].
  - intros t. rewrite grantAll_spec, Htok. split.
    + intros [[?|(fn & ? & ?)]|(fn & ? & ?)]; [by left|right; exists fn..];
        (split; [apply elem_of_app; auto|done]).
    + intros [?|(fn & [?|?]%elem_of_app & ?)]; [by left; left|left; right|right];
        by exists fn.
  - intros k b t Hk Ht. apply lookup_app_Some in Hk as [Hk|[Hlen Hk]].
    + destruct (Hgate k b t Hk Ht) as [?|(j & b' & Hj & Hb' & Hg)]; [by left|].
      right. exists j, b'. split; [done|]. split; [|done]. by apply lookup_app_l_Some.
    + assert (t ∈ tokens st) as Hin.
      { apply (chosen_needs (planRegime states st i s) (withLedger i s) (tokens st)
                 (recentBeats st) 3 b t); [|done].
        by eapply list_elem_of_lookup_2. }
      apply Htok in Hin as [?|(fn & Hfn & Hg)]; [by left|].
      apply list_elem_of_lookup_1 in Hfn as [j Hj].
      right. exists j, fn. split; [|split; [by apply lookup_app_l_Some|done]].
      apply lookup_lt_Some in Hj. lia.
  - rewrite !beatsShown_app.
    rewrite (beatsShown_none (bridgeLines _)), (beatsShown_none (extraLines _ _ _ _)).
    + rewrite app_nil_l, app_nil_r. apply sublist_app; [done|]. apply beatsShown_beatLines.
    + intros l (fn & _ & E)%elem_of_extraLines fn'. by rewrite E.
    + intros l (id & E)%elem_of_bridgeLines fn'. by rewrite E.
Qed.

Lemma tokenInv_run n : tokenInv (runPrefix surfaces n states intents).
Proof.
  apply runPrefix_ind; [apply tokenInv_init|]. intros st i s _. apply tokenInv_step.
Qed.

Lemma tokens_grow_S n :
  tokens (runPrefix surfaces n states intents) ⊆ tokens (runPrefix surfaces (S n) states intents).
Proof.
  destruct (states !! n) as [s|] eqn:Hs.
  - rewrite (runPrefix_S _ _ _ n s Hs), loopBody_eq. cbv zeta. cbn [tokens].
    intros t Ht. apply grantAll_spec. by left.
  - apply lookup_ge_None in Hs. rewrite !runPrefix_ge by lia. done.
Qed.

Lemma tokens_grow n m :
  n ≤ m →
  tokens (runPrefix surfaces n states intents) ⊆ tokens (runPrefix surfaces m states intents).
Proof.
  induction 1 as [|m _ IH]; [done|]. etrans; [exact IH|apply tokens_grow_S].
Qed.
End Gating.

(** C5: in every run, what an emitted beat needs is in the seeded token set or
    granted by a beat emitted before it; the beats that show in the narrative
    are, in order, among the emitted ones; and the token set only grows from
    one step to the next, from its seed. *)
Theorem C5_token_gating surfaces states intents :
  let st := runLoop surfaces states intents in
  gated {["left_road"]} (planned st) ∧
  beatsShown (out st) `sublist_of` planned st ∧
  tokens (runPrefix surfaces 0 states intents) = {["left_road"]} ∧
  (∀ n m, n ≤ m →
     tokens (runPrefix surfaces n states intents) ⊆ tokens (runPrefix surfaces m states intents)) ∧
  (∀ regime s T recent want, T ⊆ (chooseBeatsPlanned regime s T recent want).2).
Proof.
  cbv zeta. rewrite <- (runPrefix_ge surfaces states intents (length states)) by lia.
  destruct (tokenInv_run surfaces states intents (length states)) as (_ & Hg & Hs).
  split; [exact Hg|]. split; [exact Hs|]. split; [done|]. split.
  - intros n m. apply tokens_grow.
  - intros regime s T recent want t Ht. rewrite chooseBeatsPlanned_eq. cbn [snd].
    apply grantAll_spec. by left.
Qed.

Lemma C5_token_gating_witness :
  planned (runLoop [] [emptyState ∅; emptyState ∅] []) !! 3 = Some "fn.crossing" ∧
  "in_trail" ∈ needsList "fn.crossing" ∧
  ("in_trail" ∈ ({["left_road"]} : gset string) ∨
   ∃ j b', j < 3 ∧ planned (runLoop [] [emptyState ∅; emptyState ∅] []) !! j = Some b' ∧
           "in_trail" ∈ givesList b').
Proof.
  assert (planned (runLoop [] [emptyState ∅; emptyState ∅] []) !! 3 = Some "fn.crossing") as Hk
    by (vm_compute; reflexivity).
  assert ("in_trail" ∈ needsList "fn.crossing") as Ht by by_compute.
  split; [exact Hk|]. split; [exact Ht|].
  exact (proj1 (C5_token_gating [] [emptyState ∅; emptyState ∅] []) 3 "fn.crossing" "in_trail" Hk Ht).
Defined.

(** ** C6 *)





(** ** The rolling history *)

Lemma tl_drop {A} (l : list A) : tl l = drop 1 l.
Proof. by destruct l. Qed.

Lemma remember_lastN (l : list string) b :
  remember (lastN 16 l) b = lastN 16 (l ++ [b]).
Proof.
  unfold remember, lastN. rewrite !length_app, length_drop. cbn [length].
  destruct (Nat.ltb_spec 16 (length l - (length l - 16) + 1)) as [Hlt|Hge].
  - rewrite tl_drop. rewrite <- (drop_app_le l [b]) by lia.
    rewrite drop_drop. f_equal. lia.
  - rewrite <- (drop_app_le l [b]) by lia. f_equal. lia.
Qed.

Lemma remember_all beats recent :
  length recent ≤ 16 →
  fold_left remember beats recent = lastN 16 (recent ++ beats).
Proof.
  intros Hlen. induction beats as [|b r IH] using rev_ind.
  - cbn [fold_left]. rewrite app_nil_r. unfold lastN.
    by replace (length recent - 16) with 0 by lia.
  - rewrite fold_left_app. cbn [fold_left]. rewrite IH, remember_lastN.
    by rewrite app_assoc.
Qed.

Lemma lastN_length {A} n (l : list A) : length (lastN n l) ≤ n.
Proof. unfold lastN. rewrite length_drop. lia. Qed.

Lemma elem_of_lastN_r {A} n (l r : list A) x :
  length r ≤ n → x ∈ r → x ∈ lastN n (l ++ r).
Proof.
  intros Hlen Hx. unfold lastN. rewrite drop_app_le by (rewrite length_app; lia).
  apply elem_of_app. by right.
Qed.

Lemma recentBeats_length surfaces states intents n :
  length (recentBeats (runPrefix surfaces n states intents)) ≤ 16.
Proof.
  apply runPrefix_ind.
  - cbn. lia.
  - intros st i s _ Hst. rewrite loopBody_eq. cbv zeta. cbn [recentBeats].
    rewrite remember_all by done. apply lastN_length.
Qed.

(** ** C10 *)

(** C10: the beats a step chooses are added to the emitted beats, their
    effect tokens join the token set and they enter the rolling history (its
    last 16 entries), whatever their surface text; a chosen beat whose text
    resolves to the empty string leaves no line among the beat lines of the
    step.  With a surface table whose entry for [fn.road_walk] has an empty
    text, [fn.road_walk] is chosen, [on_road] joins the tokens and
    [fn.road_walk] the history, and the narrative has no line for it. *)
Theorem C10_silent_beats_advance :
  (∀ surfaces states intents i s,
     states !! i = Some s →
     let st := runPrefix surfaces i states intents in
     let st' := runPrefix surfaces (S i) states intents in
     let beats := stepBeats states st i s in
     let NCV := s_NCV (withLedger i s) in
     planned st' = planned st ++ beats ∧
     (∀ t, t ∈ tokens st' ↔ (t ∈ tokens st ∨ ∃ fn, fn ∈ beats ∧ t ∈ givesList fn)) ∧
     recentBeats st' = lastN 16 (recentBeats st ++ beats) ∧
     (∀ fn, fn ∈ beats → fn ∈ recentBeats st') ∧
     (∀ fn, fn ∈ beats → pickSurfaceText surfaces fn NCV = "" →
        ∀ l, l ∈ beatLines surfaces NCV beats → l.1 ≠ Beat fn)) ∧
  (let st := runLoop silentRoad [emptyState ∅] [] in
   "fn.road_walk" ∈ planned st ∧ "on_road" ∈ tokens st ∧
   "fn.road_walk" ∈ recentBeats st ∧
   ∀ l, l ∈ out st → originFn l.1 ≠ Some "fn.road_walk").
Proof.
  split.
  - intros surfaces states intents i s Hs. cbv zeta.
    rewrite (runPrefix_S _ _ _ i s Hs), loopBody_eq. cbv zeta.
    cbn [planned tokens recentBeats].
    set (st := runPrefix surfaces i states intents).
    pose proof (recentBeats_length surfaces states intents i) as Hlen. fold st in Hlen.
    assert (length (stepBeats states st i s) ≤ 16) as Hb.
    { unfold stepBeats. etrans; [apply chosen_length|lia]. }
    rewrite remember_all by done.
    split; [done|]. split; [intros t; apply grantAll_spec|]. split; [done|]. split.
    + intros fn Hfn. by apply elem_of_lastN_r.
    + intros fn Hfn Hempty l (fn' & _ & -> & Hne)%elem_of_beatLines. cbn [fst snd] in *.
      intros [= ->]. by apply Hne.
  - cbv zeta. split; [by_compute|]. split; [by_compute|]. split; [by_compute|].
    apply Forall_forall. by_compute.
Qed.

Lemma C10_silent_beats_advance_witness :
  let st := runPrefix silentRoad 0 [emptyState ∅] [] in
  let st' := runPrefix silentRoad 1 [emptyState ∅] [] in
  planned st' = planned st ++ stepBeats [emptyState ∅] st 0 (emptyState ∅) ∧
  "fn.road_walk" ∈ recentBeats st'.
Proof.
  cbv zeta.
  destruct (proj1 C10_silent_beats_advance silentRoad [emptyState ∅] [] 0 (emptyState ∅) eq_refl)
    as (Hp & _ & _ & Hr & _).
  split; [exact Hp|]. apply Hr. by_compute.
Defined.

(** ** Finite weights *)

Lemma worth_inv x q : worth x q → ∃ p, x = Fin p ∧ (p == q)%Q.
Proof. destruct x; cbn; try done. intros H. by exists q0. Qed.

Lemma add_worth x y a b : worth x a → worth y b → worth (add x y) (a + b).
Proof.
  intros (p & -> & Hp)%worth_inv (p' & -> & Hp')%worth_inv. cbn.
  rewrite Qred_correct. by rewrite Hp, Hp'.
Qed.




Lemma or0_worth x a : worth x a → worth (or0 x) a.
Proof.
  intros (p & -> & Hp)%worth_inv. unfold or0. cbn.
  destruct (Qeq_bool p 0) eqn:E; cbn; [|done].
  apply Qeq_bool_iff in E. by rewrite <- Hp, E.
Qed.


Lemma worth_nonneg_finite w : finiteW w →
  ∃ a b c d e, w = mkW a b c d e ∧ (0 <= a ∧ 0 <= b ∧ 0 <= c ∧ 0 <= d ∧ 0 <= e)%Q.
Proof.
  intros H. destruct w as [h t r f s].
  destruct (H horror) as (a & Ha & ?), (H trickster) as (b & Hb & ?), (H thriller) as (c & Hc & ?),
    (H fairytale) as (d & Hd & ?), (H shamanic) as (e & He & ?).
  cbn in *. subst. by exists a, b, c, d, e.
Qed.

Lemma worth_eq x q q' : worth x q → (q == q')%Q → worth x q'.
Proof. intros (p & -> & Hp)%worth_inv Hq. cbn. by rewrite Hp. Qed.

Lemma wsum_mkW a b c d e : worth (wsum (mkW a b c d e)) (a + b + c + d + e).
Proof.
  unfold wsum, mkW. cbn [fold_left REGIME_LIST wget w_horror w_trickster w_thriller w_fairytale w_shamanic].
  apply (worth_eq _ (0 + a + b + c + d + e)); [|lra].
  repeat apply add_worth; apply worth_Fin.
Qed.

Lemma finiteW_mkW a b c d e :
  (0 <= a ∧ 0 <= b ∧ 0 <= c ∧ 0 <= d ∧ 0 <= e)%Q → finiteW (mkW a b c d e).
Proof. intros (?&?&?&?&?) []; cbn; eexists; (split; [reflexivity|done]). Qed.

Lemma normalize_mkW a b c d e :
  (0 <= a ∧ 0 <= b ∧ 0 <= c ∧ 0 <= d ∧ 0 <= e)%Q →
  let total := (a + b + c + d + e)%Q in
  (total <= 0 → normalizeWeights (mkW a b c d e) = uniform)%Q ∧
  (0 < total → ∃ a' b' c' d' e', normalizeWeights (mkW a b c d e) = mkW a' b' c' d' e' ∧
     a' == a / total ∧ b' == b / total ∧ c' == c / total ∧ d' == d / total ∧ e' == e / total)%Q.
Proof.
  intros Hpos total. unfold normalizeWeights.
  set (sum := fold_left _ REGIME_LIST (Fin 0)).
  assert (worth sum total) as Hsum.
  { subst sum. cbn [fold_left REGIME_LIST wget mkW w_horror w_trickster w_thriller w_fairytale w_shamanic].
    apply (worth_eq _ (0 + a + b + c + d + e)); [|unfold total; lra].
    repeat apply add_worth; try apply or0_worth; apply worth_Fin. }
  apply worth_inv in Hsum as (p & Ep & Hp). rewrite Ep. cbn [le].
  split.
  - intros Hle. replace (Qle_bool p 0) with true; [done|].
    symmetry. apply Qle_bool_iff. by rewrite Hp.
  - intros Hlt. replace (Qle_bool p 0) with false.
    2:{ symmetry. apply not_true_iff_false. rewrite Qle_bool_iff, Hp. lra. }
    assert (Qeq_bool p 0 = false) as E0.
    { apply not_true_iff_false. rewrite Qeq_bool_iff, Hp. lra. }
    unfold wmap. cbn [wget mkW w_horror w_trickster w_thriller w_fairytale w_shamanic div].
    rewrite E0. do 5 eexists. split; [reflexivity|].
    rewrite !Qred_correct, Hp. repeat split; reflexivity.
Qed.

Lemma worth_fun x q q' : worth x q → worth x q' → (q == q')%Q.
Proof. intros (p & -> & Hp)%worth_inv H. cbn in H. by rewrite <- Hp, <- H. Qed.

Lemma add_nonneg x y : nonneg x → nonneg y → nonneg (add x y).
Proof.
  intros (p & -> & Hp) (q & -> & Hq). eexists. split; [reflexivity|].
  rewrite Qred_correct. lra.
Qed.

Lemma mul_nonneg x y : nonneg x → nonneg y → nonneg (mul x y).
Proof.
  intros (p & -> & Hp) (q & -> & Hq). eexists. split; [reflexivity|].
  rewrite Qred_correct. by apply Qmult_le_0_compat.
Qed.

Lemma when_nonneg c a b : (0 <= a)%Q → (0 <= b)%Q → nonneg (when c a b).
Proof. intros Ha Hb. eexists. split; [reflexivity|]. by destruct c. Qed.

Lemma Fin_nonneg q : (0 <= q)%Q → nonneg (Fin q).
Proof. intros Hq. by exists q. Qed.

Lemma finiteW_uniform : finiteW uniform.
Proof. intros []; cbn; eexists; (split; [reflexivity|lra]). Qed.

Lemma wsum_uniform : worth (wsum uniform) 1.
Proof. vm_compute. reflexivity. Qed.

Lemma div_total_nonneg a total : (0 <= a)%Q → (0 < total)%Q → (0 <= a / total)%Q.
Proof.
  intros Ha Ht. unfold Qdiv. apply Qmult_le_0_compat; [done|].
  apply Qlt_le_weak. by apply Qinv_lt_0_compat.
Qed.

Lemma normalize_finite w :
  finiteW w → finiteW (normalizeWeights w) ∧ worth (wsum (normalizeWeights w)) 1.
Proof.
  intros (a & b & c & d & e & -> & Hpos)%worth_nonneg_finite.
  destruct (normalize_mkW a b c d e Hpos) as [Hzero Hdiv].
  destruct (Qlt_le_dec 0 (a + b + c + d + e)) as [Hlt|Hle].
  - destruct (Hdiv Hlt) as (a' & b' & c' & d' & e' & -> & Ea & Eb & Ec & Ed & Ee).
    destruct Hpos as (?&?&?&?&?). split.
    + apply finiteW_mkW. rewrite Ea, Eb, Ec, Ed, Ee.
      repeat split; by apply div_total_nonneg.
    + apply (worth_eq _ _ _ (wsum_mkW a' b' c' d' e')).
      rewrite Ea, Eb, Ec, Ed, Ee. field. lra.
  - rewrite (Hzero Hle). split; [apply finiteW_uniform|apply wsum_uniform].
Qed.

Lemma normalize_cases w total :
  finiteW w → worth (wsum w) total →
  ((total <= 0)%Q → normalizeWeights w = uniform) ∧
  ((0 < total)%Q → ∀ k, ∃ q, wget w k = Fin q ∧ worth (wget (normalizeWeights w) k) (q / total)).
Proof.
  intros (a & b & c & d & e & -> & Hpos)%worth_nonneg_finite Htot.
  pose proof (worth_fun _ _ _ Htot (wsum_mkW a b c d e)) as Et.
  destruct (normalize_mkW a b c d e Hpos) as [Hzero Hdiv]. split.
  - intros Hle. apply Hzero. by rewrite <- Et.
  - intros Hlt. destruct Hdiv as (a' & b' & c' & d' & e' & -> & Ea & Eb & Ec & Ed & Ee).
    { by rewrite <- Et. }
    intros []; cbn; eexists; (split; [reflexivity|]); by rewrite Et.
Qed.

Lemma instant_finite s :
  finiteW (instantRegimeWeights s) ∧ worth (wsum (instantRegimeWeights s)) 1.
Proof.
  unfold instantRegimeWeights. cbv zeta. apply normalize_finite.
  intros []; cbn [wget w_horror w_trickster w_thriller w_fairytale w_shamanic];
    repeat apply add_nonneg; try (apply when_nonneg; lra); apply Fin_nonneg; lra.
Qed.

Lemma wget_wmap f k : wget (wmap f) k = f k.
Proof. by destruct k. Qed.

Lemma mix_finite prev now :
  finiteW prev → finiteW now →
  finiteW (mixWeights prev now (Fin 0.7)) ∧ worth (wsum (mixWeights prev now (Fin 0.7))) 1.
Proof.
  intros Hp Hn. unfold mixWeights. apply normalize_finite.
  intros k. rewrite wget_wmap. apply add_nonneg; apply mul_nonneg.
  - apply Fin_nonneg. lra.
  - apply Hp.
  - eexists. split; [reflexivity|]. by vm_compute.
  - apply Hn.
Qed.


(** ** C7 *)



(** ** The shape of a narrative *)

Lemma countFn_app fn l1 l2 : countFn fn (l1 ++ l2) = countFn fn l1 + countFn fn l2.
Proof. unfold countFn. by rewrite filter_app, length_app. Qed.

Lemma countFn_zero fn (lines : list Line) :
  (∀ l, l ∈ lines → originFn l.1 ≠ Some fn) → countFn fn lines = 0.
Proof.
  intros H. unfold countFn. induction lines as [|l r IH]; [done|].
  rewrite filter_cons_False; [|apply H; by left].
  apply IH. intros l' Hl'. apply H. by right.
Qed.

Lemma gate_not_in_palette regime fn : fn ∈ gateFns → inPalette regime fn = false.
Proof.
  intros [->|[->|H]%elem_of_cons]%elem_of_cons.
  - by destruct regime; vm_compute.
  - by destruct regime; vm_compute.
  - by apply elem_of_nil in H.
Qed.

Lemma selectFunctions_then evalExpr s cb fn :
  fn ∈ selectFunctions evalExpr s cb →
  ∃ rule, rule ∈ default [] (thresholds cb) ∧ fn ∈ then_ rule.
Proof.
  unfold selectFunctions. rewrite list_elem_of_In, in_flat_map.
  intros (rule & Hrule & Hfn). exists rule. rewrite !list_elem_of_In. split; [done|].
  destruct (evalExpr _ _) as [[|]|]; [done|by destruct Hfn..].
Qed.

Section Shape.
Variable surfaces : list Surface.
Variable evalExpr : string → gmap string value → option bool.
Variable cb : Codebook.
Hypothesis Hcb : noGateIntents cb.

(** Past its first two lines, a narrative in the making has no line rendered
    from a gate function. *)
Lemma no_gate_lines states n fn :
  fn ∈ gateFns →
  ∃ more,
    out (runPrefix surfaces n states (intentsOf evalExpr states cb)) =
      out (initLoop surfaces) ++ more ∧
    ∀ l, l ∈ more → originFn l.1 ≠ Some fn.
Proof.
  intros Hfn.
  apply (runPrefix_ind surfaces states (intentsOf evalExpr states cb)
           (λ st, ∃ more, out st = out (initLoop surfaces) ++ more ∧
                          ∀ l, l ∈ more → originFn l.1 ≠ Some fn)).
  - exists []. split; [by rewrite app_nil_r|]. intros l Hl. by apply elem_of_nil in Hl.
  - intros st i s Hs (more & Hout & Hmore). rewrite loopBody_eq. cbv zeta. cbn [out].
    eexists. split; [rewrite Hout, <- app_assoc; reflexivity|].
    intros l. rewrite !elem_of_app. intros [Hl|[Hl|[Hl|Hl]]].
    + by apply Hmore.
    + apply elem_of_bridgeLines in Hl as [id ->]. done.
    + apply elem_of_beatLines in Hl as (b & Hb & -> & _). cbn [fst originFn].
      intros [= ->]. apply chosen_inPalette in Hb.
      by rewrite (gate_not_in_palette _ fn Hfn) in Hb.
    + apply elem_of_extraLines in Hl as (f & Hhead & ->). cbn [originFn].
      intros [= ->]. unfold intentsOf in Hhead. rewrite list_lookup_fmap, Hs in Hhead.
      cbn in Hhead. apply head_Some_elem_of in Hhead.
      apply selectFunctions_then in Hhead as (rule & Hrule & Hin).
      destruct (Hcb rule Hrule) as [Hc Hr].
      apply elem_of_cons in Hfn as [->|[->|Hfn]%elem_of_cons]; [done|done|].
      by apply elem_of_nil in Hfn.
Qed.

(** A click on Generate with at least one row and a codebook that bins every
    tracked channel leaves a narrative between the two anchors, with one line
    for [fn.call] and one for [fn.return]. *)
Lemma generate_shape rawCSV engaged :
  rowsOf rawCSV engaged ≠ [] → allBinned cb →
  ∃ lines,
    generate surfaces evalExpr rawCSV engaged cb = Ok (Generated lines) ∧
    head (narrative lines) = Some opening ∧ last (narrative lines) = Some closing ∧
    countFn "fn.call" lines = 1 ∧ countFn "fn.return" lines = 1.
Proof.
  intros Hrows Hbins. unfold generate, statesOf, onGenerate.
  assert (bool_decide (length (rowsOf rawCSV engaged) = 0) = false) as ->.
  { apply bool_decide_eq_false_2. by destruct (rowsOf rawCSV engaged). }
  destruct (computeStates_ok (rowsOf rawCSV engaged) cb Hbins) as (states & -> & _).
  cbn [bind]. eexists. split; [reflexivity|].
  rewrite <- (runPrefix_ge surfaces states _ (length states)) by lia.
  destruct (no_gate_lines states (length states) "fn.call") as (more & Hout & Hcall);
    [by left|].
  destruct (no_gate_lines states (length states) "fn.return") as (more' & Hout' & Hret);
    [by right; left|].
  rewrite Hout' in Hout. apply app_inv_head in Hout as ->.
  unfold finish. rewrite Hout'. cbn [out initLoop].
  split; [done|]. split.
  - unfold narrative. by rewrite fmap_last, last_app_cons.
  - rewrite !countFn_app, (countFn_zero "fn.call" more Hcall),
      (countFn_zero "fn.return" more Hret). by vm_compute.
Qed.
End Shape.

(** ** C9 *)

Lemma allBinned_geologyLike : allBinned geologyLike.
Proof.
  intros ch Hch. cbn in Hch.
  repeat (apply elem_of_cons in Hch as [->|Hch]; [eexists; split; [reflexivity|done]|]).
  by apply elem_of_nil in Hch.
Qed.

Lemma noGateIntents_geologyLike : noGateIntents geologyLike.
Proof.
  intros rule Hrule. cbn in Hrule.
  apply list_elem_of_singleton in Hrule as ->. cbn.
  split; intros H%list_elem_of_singleton; discriminate H.
Qed.

(** C9: for the geology sample table (six rows) and a codebook that bins
    every channel it tracks and whose threshold rules emit neither [fn.call]
    nor [fn.return], a narrative is generated; it starts with the opening
    anchor, ends with the closing anchor, and has exactly one line rendered
    from [fn.call] and exactly one rendered from [fn.return]. *)
Theorem C9_geology_narrative surfaces evalExpr cb :
  allBinned cb → noGateIntents cb →
  length (rowsOf geologySampleCSV (engagedAll geologyChannels)) = 6 ∧
  ∃ lines,
    generate surfaces evalExpr geologySampleCSV (engagedAll geologyChannels) cb
      = Ok (Generated lines) ∧
    head (narrative lines) = Some opening ∧ last (narrative lines) = Some closing ∧
    countFn "fn.call" lines = 1 ∧ countFn "fn.return" lines = 1.
Proof.
  intros Hbins Hgate.
  assert (length (rowsOf geologySampleCSV (engagedAll geologyChannels)) = 6) as Hlen
    by (vm_compute; reflexivity).
  split; [exact Hlen|].
  apply generate_shape; [done| |done].
  clear -Hlen. destruct (rowsOf _ _); [discriminate Hlen|done].
Qed.

Lemma C9_geology_narrative_witness :
  ∃ lines,
    generate [] evalTrue geologySampleCSV (engagedAll geologyChannels) geologyLike
      = Ok (Generated lines) ∧
    head (narrative lines) = Some opening ∧ last (narrative lines) = Some closing ∧
    countFn "fn.call" lines = 1 ∧ countFn "fn.return" lines = 1.
Proof.
  exact (proj2 (C9_geology_narrative [] evalTrue geologyLike
                  allBinned_geologyLike noGateIntents_geologyLike)).
Defined.

(** ** C2 *)

Lemma parseCSV_blank text :
  trim text = "" → parseCSV text = [{["value" := VNum (Fin 0)]}].
Proof. intros H. unfold parseCSV. rewrite H. vm_compute. reflexivity. Qed.

Lemma rowsOf_blank text engaged : trim text = "" → length (rowsOf text engaged) = 1.
Proof.
  intros H. unfold rowsOf. rewrite (parseCSV_blank text H).
  destruct (negb _); [done|]. by rewrite length_fmap.
Qed.

(** With a header line and no data line the table is empty and the click is
    answered with the status message. *)
Example header_only_is_no_data surfaces evalExpr engaged cb :
  generate surfaces evalExpr "seismic,tilt" engaged cb = Ok NoData.
Proof. reflexivity. Qed.

(** C2 fails on the code: a text that is empty or blank parses to one row
    ([{ value: 0 }]), so the table of the component has one row, the guard of
    [onGenerate] does not fire and the result is never the "no data" status;
    with a codebook that bins its channels a narrative is produced, from the
    opening to the closing anchor. *)
Theorem C2_blank_text_generates surfaces evalExpr text engaged cb :
  trim text = "" →
  parseCSV text = [{["value" := VNum (Fin 0)]}] ∧
  length (rowsOf text engaged) = 1 ∧
  generate surfaces evalExpr text engaged cb ≠ Ok NoData ∧
  (allBinned cb → noGateIntents cb →
   ∃ lines,
     generate surfaces evalExpr text engaged cb = Ok (Generated lines) ∧
     head (narrative lines) = Some opening ∧ last (narrative lines) = Some closing).
Proof.
  intros H. pose proof (rowsOf_blank text engaged H) as Hlen.
  split; [by apply parseCSV_blank|]. split; [done|]. split.
  - unfold generate, statesOf, onGenerate.
    rewrite bool_decide_eq_false_2 by (rewrite Hlen; lia).
    destruct (computeStates _ cb); cbn [bind]; discriminate.
  - intros Hbins Hgate.
    destruct (generate_shape surfaces evalExpr cb Hgate text engaged) as (lines & E & Hh & Hl & _).
    + clear -Hlen. destruct (rowsOf _ _); [discriminate Hlen|done].
    + done.
    + by exists lines.
Qed.

Lemma C2_blank_text_generates_witness :
  length (rowsOf "" (engagedAll geologyChannels)) = 1 ∧
  generate [] evalTrue "" (engagedAll geologyChannels) geologyLike ≠ Ok NoData ∧
  generate [] evalTrue ("  " +:+ nl +:+ " ") (engagedAll geologyChannels) geologyLike ≠ Ok NoData.
Proof.
  pose proof (C2_blank_text_generates [] evalTrue "" (engagedAll geologyChannels) geologyLike eq_refl)
    as (_ & H1 & H2 & _).
  pose proof (C2_blank_text_generates [] evalTrue ("  " +:+ nl +:+ " ")
                (engagedAll geologyChannels) geologyLike eq_refl) as (_ & _ & H3 & _).
  split; [exact H1|]. split; [exact H2|exact H3].
Defined.

(** ** The deriver on small inputs *)

Example binValue_samples :
  let bs := mkBins [("a", 5%Q); ("b", 10%Q)] in
  binValue bs (Fin 5) = Ok "a" ∧
  binValue bs (Fin 5.0001) = Ok "b" ∧
  binValue bs (Fin 1000) = Ok "b" ∧
  binValue bs NaN = Ok "b" ∧
  (∃ msg, binValue [] (Fin 1) = Throw msg).
Proof. cbv zeta. repeat split; try reflexivity. by eexists. Qed.

Example rolling_first_row :
  let rows := parseCSV geologySampleCSV in
  worth (mean (rolling rows 0 (Fin 5) "seismic")) 0.005 ∧
  variance (rolling rows 0 (Fin 5) "seismic") = Fin 0 ∧
  trend (rolling rows 0 (Fin 5) "seismic") = Fin 0 ∧
  worth (trend (rolling rows 2 (Fin 5) "seismic")) 0.004 ∧
  worth (trend (rolling rows 5 (Fin 2) "seismic")) (-0.009).
Proof. cbv zeta. repeat split; vm_compute; reflexivity. Qed.

Example geology_first_state :
  ∃ s rest,
    computeStates (parseCSV geologySampleCSV) geologyLike = Ok (s :: rest) ∧
    length rest = 5 ∧
    s_bins s !! "seismic" = Some "active" ∧
    s_trend s !! "seismic" = Some (Fin 0) ∧
    s_setpoint s !! "temp" = Some "warm".
Proof.
  destruct (computeStates (parseCSV geologySampleCSV) geologyLike) as [[|s rest]|] eqn:E;
    try (vm_compute in E; discriminate E).
  exists s, rest. split; [done|].
  vm_compute in E. injection E as <- <-. repeat split; vm_compute; reflexivity.
Qed.

(** ** [binValue] and [parseCSV] *)

(** X1: [binValue] throws on the empty bin list only; otherwise it returns the
    id of the first bin whose [max] is at least the value, or of the last bin
    when there is none. *)
Theorem binValue_first_match (bs : list Bin) (v : num) :
  match binValue bs v with
  | Throw _ => bs = []
  | Ok b =>
      ∃ pre bin post,
        bs = pre ++ bin :: post ∧ b = id bin ∧
        Forall (λ x, le v (max x) = false) pre ∧
        (le v (max bin) = true ∨ post = [])
  end.
Proof.
  unfold binValue. induction bs as [|x r IH]; [done|].
  cbn [find]. destruct (le v (max x)) eqn:Hx.
  - exists [], x, r. by repeat split; [constructor|left].
  - destruct (find _ r) as [b|] eqn:Hf.
    + destruct IH as (pre & bin & post & -> & -> & Hpre & Hbin).
      exists (x :: pre), bin, post. repeat split; [by constructor|done].
    + destruct r as [|y r'].
      * exists [], x, []. repeat split; [constructor|by right].
      * change (last (x :: y :: r')) with (last (y :: r')).
        destruct (last (y :: r')) as [b|] eqn:Hl; [|done].
        destruct IH as (pre & bin & post & E & -> & Hpre & Hbin).
        exists (x :: pre), bin, post. rewrite E. repeat split; [by constructor|done].
Qed.

Lemma imap_pair_snd {A} (l : list A) : (imap (λ i h, (i, h)) l).*2 = l.
Proof.
  apply list_eq. intros i. rewrite list_lookup_fmap, list_lookup_imap.
  by destruct (l !! i).
Qed.

(** What a loop of [obj[k] = f(...)] leaves in the object. *)
Lemma fold_insert_spec {A V} (key : A → string) (f : A → V) (l : list A) (init : gmap string V) :
  let obj := fold_left (λ (obj : gmap string V) a, <[key a := f a]> obj) l init in
  dom obj = dom init ∪ list_to_set (key <$> l) ∧
  ∀ k v, obj !! k = Some v → init !! k = Some v ∨ ∃ a, a ∈ l ∧ v = f a.
Proof.
  revert init. induction l as [|a r IH]; intros init; cbn [fold_left].
  - split; [|intros k v; by left]. rewrite fmap_nil. cbn [list_to_set].
    symmetry. apply (right_id_L ∅ (∪)).
  - destruct (IH (<[key a := f a]> init)) as [Hd Hv]. split.
    + rewrite Hd, dom_insert_L, fmap_cons. cbn [list_to_set].
      rewrite (comm_L (∪) {[key a]} (dom init)). by rewrite <- (assoc_L (∪)).
    + intros k v Hk. destruct (Hv k v Hk) as [Hi|(b & Hb & ->)].
      * destruct (decide (key a = k)) as [<-|Hne].
        -- rewrite lookup_insert_eq in Hi. injection Hi as <-. right. exists a. split; [by left|done].
        -- rewrite lookup_insert_ne in Hi by done. by left.
      * right. exists b. split; [by right|done].
Qed.

Lemma parseLine_spec headers ln :
  dom (parseLine headers ln) = list_to_set headers ∧
  ∀ k n, parseLine headers ln !! k = Some (VNum n) → isFinite n = true.
Proof.
  unfold parseLine.
  set (cols := trim <$> split "," ln).
  destruct (fold_insert_spec (λ hi : nat * string, hi.2)
    (λ hi, let n := Number (from_option VStr VUndef (cols !! hi.1)) in
           if isFinite n then VNum n else from_option VStr VUndef (cols !! hi.1))
    (imap (λ i h, (i, h)) headers) ∅) as [Hd Hv].
  split.
  - transitivity (dom (∅ : Row) ∪ list_to_set ((λ hi : nat * string, hi.2) <$> imap (λ i h, (i, h)) headers) : gset string);
      [exact Hd|].
    rewrite dom_empty_L. change (λ hi : nat * string, hi.2) with (@snd nat string).
    rewrite imap_pair_snd. apply (left_id_L ∅ (∪)).
  - intros k n Hk. destruct (Hv k _ Hk) as [Hi|(hi & _ & E)]; [by rewrite lookup_empty in Hi|].
    cbv zeta in E. destruct (isFinite (Number _)) eqn:Hfin.
    + by injection E as ->.
    + destruct (cols !! hi.1); discriminate E.
Qed.



(** X3: without a header line, [parseCSV] gives one row per line, each with
    the single key [value]; the table is never empty. *)
Theorem parseCSV_headerless text :
  hasHeader text = false →
  length (parseCSV text) = length (csvLines text) ∧ parseCSV text ≠ [] ∧
  ∀ row, row ∈ parseCSV text → dom row = {["value"]}.
Proof.
  intros H. unfold parseCSV. fold (csvLines text). fold (csvHeaders text).
  unfold hasHeader in H. rewrite H. cbn [negb].
  assert (csvLines text ≠ []) as Hne.
  { unfold csvLines. by destruct (trim text) as [|c [|c' r]]; cbn;
      repeat (destruct (Ascii.eqb _ _); cbn); try done;
      match goal with |- context [push_front ?c ?l] => destruct l end. }
  split; [by rewrite length_fmap|]. split.
  - destruct (csvLines text); [done|]. by rewrite fmap_cons.
  - intros row Hrow. apply list_elem_of_fmap in Hrow as (ln & -> & _). by rewrite dom_singleton_L.
Qed.

Lemma parseCSV_headerless_witness :
  length (parseCSV ("1" +:+ nl +:+ "2" +:+ nl +:+ "x")) = 3 ∧
  ∀ row, row ∈ parseCSV ("1" +:+ nl +:+ "2" +:+ nl +:+ "x") → dom row = {["value"]}.
Proof.
  destruct (parseCSV_headerless ("1" +:+ nl +:+ "2" +:+ nl +:+ "x") eq_refl) as (Hlen & _ & Hrows).
  split; [exact Hlen|exact Hrows].
Defined.

(** ** [rolling] *)

Lemma rolling_statsOf rows idx n key :
  rolling rows idx n key = statsOf (windowOf rows idx n key).
Proof. reflexivity. Qed.

Lemma slice_lookup {A} (l : list A) f n i :
  take n (drop f l) !! i = if decide (i < n) then l !! (f + i) else None.
Proof. rewrite lookup_take. case_decide; [apply lookup_drop|done]. Qed.

(** A slice that ends at [idx] reads no row past [idx]. *)
Lemma slice_prefix {A} (l : list A) (a idx m : nat) :
  idx < m →
  take (S idx - Nat.min a (length (take m l))) (drop (Nat.min a (length (take m l))) (take m l)) =
  take (S idx - Nat.min a (length l)) (drop (Nat.min a (length l)) l).
Proof.
  intros Hm. apply list_eq. intros i. rewrite !slice_lookup, length_take.
  repeat case_decide; try done.
  - rewrite lookup_take. case_decide; [|lia].
    destruct (decide (a ≤ length l)).
    + f_equal. lia.
    + rewrite !lookup_ge_None_2; [done|lia..].
  - rewrite lookup_take. case_decide; [|lia].
    apply lookup_ge_None_2. lia.
  - symmetry. apply lookup_ge_None_2. lia.
Qed.

Lemma windowOf_prefix rows idx n key m :
  idx < m → windowOf (take m rows) idx n key = windowOf rows idx n key.
Proof.
  intros Hm. unfold windowOf. cbv zeta.
  destruct (max0 (add (sub (of_nat idx) n) (Fin 1))) as [q| | |]; cbn [sliceStart].
  - by rewrite slice_prefix.
  - by rewrite !drop_all, !take_nil.
  - rewrite !drop_0. apply list_eq. intros i. rewrite !list_lookup_fmap, !lookup_take.
    repeat case_decide; try done; lia.
  - rewrite !drop_0. apply list_eq. intros i. rewrite !list_lookup_fmap, !lookup_take.
    repeat case_decide; try done; lia.
Qed.

Lemma rolling_prefix rows idx n key m :
  idx < m → rolling (take m rows) idx n key = rolling rows idx n key.
Proof. intros Hm. by rewrite !rolling_statsOf, windowOf_prefix. Qed.

Lemma mapM_take {A B} (f : A → result B) (l : list A) ys m :
  mapM f l = Ok ys → mapM f (take m l) = Ok (take m ys).
Proof.
  revert ys m. induction l as [|x r IH]; intros ys m; cbn [mapM].
  - intros [= <-]. by rewrite !take_nil.
  - destruct (f x) as [y|] eqn:Hy; cbn [bind]; [|done].
    destruct (mapM f r) as [ys'|] eqn:Hr; cbn [bind]; [|done].
    intros [= <-]. destruct m as [|m]; [done|].
    cbn [take mapM]. rewrite Hy. cbn [bind]. rewrite (IH ys' m eq_refl). done.
Qed.

Lemma mapM_ext_in {A B} (f g : A → result B) (l : list A) :
  (∀ x, x ∈ l → f x = g x) → mapM f l = mapM g l.
Proof.
  induction l as [|x r IH]; intros H; cbn [mapM]; [done|].
  rewrite (H x) by (by left). rewrite IH; [done|]. intros y Hy. apply H. by right.
Qed.

Lemma imap_pair_take {A} (l : list A) m :
  imap (λ i r, (i, r)) (take m l) = take m (imap (λ i r, (i, r)) l).
Proof.
  apply list_eq. intros i. rewrite list_lookup_imap, !lookup_take.
  case_decide; [by rewrite list_lookup_imap|done].
Qed.

(** X4: the state of a row is derived from the rows up to it: on the first
    [m] rows of a table, [computeStates] gives the first [m] states it gives
    on the whole table. *)
Theorem computeStates_prefix rows cb states m :
  computeStates rows cb = Ok states →
  computeStates (take m rows) cb = Ok (take m states).
Proof.
  intros H. unfold computeStates in *. rewrite imap_pair_take.
  rewrite (mapM_ext_in _ (λ ir, stateOf rows cb ir.1 ir.2)).
  - by apply mapM_take.
  - intros [i r] Hir. cbn [fst snd].
    apply elem_of_take in Hir as (j & Hj & Hlt).
    rewrite list_lookup_imap in Hj. destruct (rows !! j); [|done]. injection Hj as <- <-.
    unfold stateOf. f_equal.
    apply foldM_ext. intros s ch. unfold channelStep. by rewrite rolling_prefix.
Qed.

Lemma computeStates_prefix_witness :
  ∃ states,
    computeStates (parseCSV geologySampleCSV) geologyLike = Ok states ∧
    computeStates (take 2 (parseCSV geologySampleCSV)) geologyLike = Ok (take 2 states).
Proof.
  destruct (computeStates_ok (parseCSV geologySampleCSV) geologyLike allBinned_geologyLike)
    as (states & E & _).
  exists states. split; [exact E|]. exact (computeStates_prefix _ _ _ 2 E).
Defined.

(** The start of the window of size [k] at index [idx]. *)
Lemma window_start idx k len :
  1 ≤ k → idx < len →
  sliceStart (max0 (add (sub (of_nat idx) (of_nat k)) (Fin 1))) len = S idx - k.
Proof.
  intros Hk Hidx. unfold of_nat. cbn [sub neg add].
  set (q := Qred (Qred (inject_Z (Z.of_nat idx) + - inject_Z (Z.of_nat k)) + 1)).
  assert (q == inject_Z (Z.of_nat idx - Z.of_nat k + 1))%Q as Hq.
  { subst q. rewrite !Qred_correct. unfold Zminus.
    rewrite !inject_Z_plus, inject_Z_opp. reflexivity. }
  unfold max0. cbn [lt]. unfold Qlt_bool.
  destruct (Qle_bool q 0) eqn:Hle; cbn [negb sliceStart].
  - apply Qle_bool_iff in Hle. rewrite Hq in Hle.
    change 0%Q with (inject_Z 0) in Hle. rewrite <- Zle_Qle in Hle.
    change (Z.to_nat (Qfloor 0)) with 0%nat. lia.
  - assert (¬ (q <= 0)%Q) as Hgt by (rewrite <- Qle_bool_iff, Hle; done).
    rewrite Hq in Hgt. change 0%Q with (inject_Z 0) in Hgt. rewrite <- Zle_Qle in Hgt.
    rewrite (Qfloor_comp _ _ Hq), Qfloor_Z. lia.
Qed.

(** X5: for a window of [k >= 1] rows, [rolling] at index [idx] works on the
    rows [max(0, idx-k+1) .. idx]: the last [k] rows up to [idx], or all of
    them when there are fewer. *)
Theorem rolling_window rows idx k key :
  1 ≤ k → idx < length rows →
  rolling rows idx (of_nat k) key =
    statsOf (cellNum key <$> take (Nat.min (S idx) k) (drop (S idx - k) rows)) ∧
  length (take (Nat.min (S idx) k) (drop (S idx - k) rows)) = Nat.min (S idx) k.
Proof.
  intros Hk Hidx. split.
  - rewrite rolling_statsOf. unfold windowOf. cbv zeta.
    rewrite (window_start idx k (length rows) Hk Hidx). do 3 f_equal. lia.
  - rewrite length_take, length_drop. lia.
Qed.

Lemma rolling_window_witness :
  rolling (parseCSV geologySampleCSV) 4 (of_nat 2) "seismic" =
    statsOf (cellNum "seismic" <$> take 2 (drop 3 (parseCSV geologySampleCSV))).
Proof.
  refine (proj1 (rolling_window (parseCSV geologySampleCSV) 4 2 "seismic" _ _)).
  - lia.
  - vm_compute. lia.
Defined.

Lemma mul_worth x y a b : worth x a → worth y b → worth (mul x y) (a * b).
Proof.
  intros (p & -> & Hp)%worth_inv (p' & -> & Hp')%worth_inv. cbn.
  rewrite Qred_correct. by rewrite Hp, Hp'.
Qed.

Lemma sub_worth x y a b : worth x a → worth y b → worth (sub x y) (a - b).
Proof.
  intros (p & -> & Hp)%worth_inv (p' & -> & Hp')%worth_inv. cbn.
  rewrite Qred_correct. rewrite Hp, Hp'. reflexivity.
Qed.

Lemma div_worth x y a b :
  worth x a → worth y b → ¬ (b == 0)%Q → worth (div x y) (a / b).
Proof.
  intros (p & -> & Hp)%worth_inv (p' & -> & Hp')%worth_inv Hb. cbn.
  destruct (Qeq_bool p' 0) eqn:E.
  - apply Qeq_bool_iff in E. exfalso. apply Hb. by rewrite <- Hp'.
  - cbn. rewrite Qred_correct. by rewrite Hp, Hp'.
Qed.

Lemma statsOf_single v :
  worth (mean (statsOf [Fin v])) v ∧ worth (variance (statsOf [Fin v])) 0 ∧
  trend (statsOf [Fin v]) = Fin 0.
Proof.
  unfold statsOf, sum. cbv zeta. cbn [mean variance trend length fold_left Nat.ltb Nat.leb].
  assert (worth (of_nat 1) 1) as H1 by (cbn; reflexivity).
  assert (worth (div (add (Fin 0) (Fin v)) (of_nat 1)) v) as Hm.
  { eapply worth_eq; [apply div_worth; [apply add_worth; apply worth_Fin|exact H1|lra]|].
    field. }
  split; [exact Hm|]. split; [|done].
  eapply worth_eq.
  - apply div_worth; [|exact H1|lra].
    apply add_worth; [apply worth_Fin|].
    apply mul_worth; (apply sub_worth; [apply worth_Fin|exact Hm]).
  - field.
Qed.

(** X6: on a window that holds one row (the first row of the table, or a
    window of size 1) with a finite value, the mean is that value, the
    variance is 0 and the trend is 0. *)
Theorem rolling_single_row rows idx k key r v :
  rows !! idx = Some r → cellNum key r = Fin v → 1 ≤ k → idx = 0 ∨ k = 1 →
  worth (mean (rolling rows idx (of_nat k) key)) v ∧
  worth (variance (rolling rows idx (of_nat k) key)) 0 ∧
  trend (rolling rows idx (of_nat k) key) = Fin 0.
Proof.
  intros Hr Hv Hk Hone.
  assert (idx < length rows) as Hidx by (by eapply lookup_lt_Some).
  rewrite (proj1 (rolling_window rows idx k key Hk Hidx)).
  assert (take (Nat.min (S idx) k) (drop (S idx - k) rows) = [r]) as ->.
  { apply list_eq. intros i. rewrite slice_lookup.
    destruct Hone as [->| ->].
    - replace (Nat.min 1 k) with 1 by lia. replace (1 - k) with 0 by lia.
      destruct i as [|i]; case_decide; try lia; [by rewrite Nat.add_0_r, Hr|done].
    - replace (Nat.min (S idx) 1) with 1 by lia. replace (S idx - 1) with idx by lia.
      destruct i as [|i]; case_decide; try lia; [by rewrite Nat.add_0_r, Hr|done]. }
  rewrite fmap_cons, fmap_nil, Hv. apply statsOf_single.
Qed.

Lemma rolling_single_row_witness :
  worth (mean (rolling (parseCSV geologySampleCSV) 0 (of_nat 5) "seismic")) 0.005 ∧
  worth (variance (rolling (parseCSV geologySampleCSV) 0 (of_nat 5) "seismic")) 0 ∧
  trend (rolling (parseCSV geologySampleCSV) 0 (of_nat 5) "seismic") = Fin 0.
Proof.
  refine (rolling_single_row (parseCSV geologySampleCSV) 0 5 "seismic"
            (default ∅ (head (parseCSV geologySampleCSV))) 0.005 _ _ _ _).
  - vm_compute. reflexivity.
  - vm_compute. reflexivity.
  - lia.
  - by left.
Defined.

(** X7: with a window of zero or less, [rolling] works on no row at all: the
    mean and the variance are NaN (0/0) and the trend is 0. *)
Theorem rolling_empty_window rows idx q key :
  (q <= 0)%Q → idx < length rows →
  rolling rows idx (Fin q) key = {| mean := NaN; variance := NaN; trend := Fin 0 |}.
Proof.
  intros Hq Hidx. rewrite rolling_statsOf. unfold windowOf. cbv zeta.
  unfold of_nat. cbn [sub neg add].
  set (s := Qred (Qred (inject_Z (Z.of_nat idx) + - q) + 1)).
  assert (inject_Z (Z.of_nat idx + 1) <= s)%Q as Hs.
  { subst s. rewrite !Qred_correct, inject_Z_plus. change (inject_Z 1) with 1%Q. lra. }
  assert (0 < s)%Q as Hpos.
  { eapply Qlt_le_trans; [|exact Hs]. change 0%Q with (inject_Z 0).
    rewrite <- Zlt_Qlt. lia. }
  unfold max0. cbn [lt]. unfold Qlt_bool.
  replace (Qle_bool s 0) with false.
  2:{ symmetry. apply not_true_iff_false. rewrite Qle_bool_iff. lra. }
  cbn [negb sliceStart].
  apply Qfloor_resp_le in Hs. rewrite Qfloor_Z in Hs.
  replace (S idx - Nat.min (Z.to_nat (Qfloor s)) (length rows)) with 0 by lia.
  reflexivity.
Qed.

Lemma rolling_empty_window_witness :
  rolling (parseCSV geologySampleCSV) 3 (Fin 0) "seismic" =
    {| mean := NaN; variance := NaN; trend := Fin 0 |}.
Proof.
  apply rolling_empty_window.
  - by vm_compute.
  - vm_compute. lia.
Defined.





(** ** What [computeStates] puts in a state *)

Lemma mapM_lookup {A B} (f : A → result B) (l : list A) ys i y :
  mapM f l = Ok ys → ys !! i = Some y → ∃ x, l !! i = Some x ∧ f x = Ok y.
Proof.
  revert ys i. induction l as [|x r IH]; intros ys i; cbn [mapM].
  - intros [= <-] Hy. by rewrite lookup_nil in Hy.
  - destruct (f x) as [y0|] eqn:Hx; cbn [bind]; [|done].
    destruct (mapM f r) as [ys'|] eqn:Hr; cbn [bind]; [|done].
    intros [= <-] Hy. destruct i as [|i].
    + injection Hy as <-. by exists x.
    + by apply (IH ys' i).
Qed.

Lemma mapM_throw_head {A B} (f : A → result B) x r m :
  f x = Throw m → mapM f (x :: r) = Throw m.
Proof. intros H. cbn [mapM]. by rewrite H. Qed.

(** X9: [computeStates] returns (one state per row) exactly when the table is
    empty or every tracked channel has a bin list with at least one bin;
    otherwise it throws. *)
Theorem computeStates_succeeds_iff rows cb :
  (∃ states, computeStates rows cb = Ok states) ↔ rows = [] ∨ allBinned cb.
Proof.
  split.
  - intros [states H]. destruct rows as [|r rows]; [by left|]. right.
    intros ch Hch. unfold computeStates in H. cbn [imap mapM] in H.
    unfold stateOf at 1 in H. cbn [fst snd] in H.
    destruct (bins cb !! ch) as [[|b bs]|] eqn:Hb.
    + destruct (foldM_throw (channelStep (r :: rows) 0 (window cb) cb r) (channels cb) ch Hch)
        with (a := emptyState r) as [m Hm].
      { intros s. unfold channelStep. rewrite Hb. cbn. by eexists. }
      rewrite Hm in H. done.
    + by exists (b :: bs).
    + destruct (foldM_throw (channelStep (r :: rows) 0 (window cb) cb r) (channels cb) ch Hch)
        with (a := emptyState r) as [m Hm].
      { by apply channelStep_throw. }
      rewrite Hm in H. done.
  - intros [->|Hcb]; [by exists []|].
    destruct (computeStates_ok rows cb Hcb) as (states & E & _). by exists states.
Qed.

Lemma computeStates_length rows cb states :
  computeStates rows cb = Ok states → length states = length rows.
Proof.
  unfold computeStates. revert states.
  generalize (imap (λ i r, (i, r)) rows) (length_imap (λ i (r : Row), (i, r)) rows).
  intros l Hl. rewrite <- Hl. clear Hl. induction l as [|x r IH]; intros states; cbn [mapM].
  - by intros [= <-].
  - destruct (stateOf _ _ _ _); cbn [bind]; [|done].
    destruct (mapM _ r) as [ys|]; cbn [bind]; [|done]. intros [= <-]. cbn [length].
    by rewrite (IH ys).
Qed.

(** What the loop over the channels leaves in the state. *)
Lemma channels_fold rows idx win cb r (l : list string) (a a' : State) :
  foldM (channelStep rows idx win cb r) a l = Ok a' →
  raw a' = raw a ∧ s_setpoint a' = s_setpoint a ∧ s_relative a' = s_relative a ∧
  s_NCV a' = s_NCV a ∧
  dom (s_bins a') = dom (s_bins a) ∪ list_to_set l ∧
  dom (s_trend a') = dom (s_trend a) ∪ list_to_set l ∧
  dom (s_var a') = dom (s_var a) ∪ list_to_set l ∧
  ∀ ch, ch ∈ l →
    s_trend a' !! ch = Some (trend (rolling rows idx win ch)) ∧
    s_var a' !! ch = Some (variance (rolling rows idx win ch)) ∧
    ∃ bs b, bins cb !! ch = Some bs ∧ binValue bs (cellNum ch r) = Ok b ∧
            s_bins a' !! ch = Some b.
Proof.
  revert a. induction l as [|c l IH]; intros a; cbn [foldM].
  - intros [= <-]. cbn [list_to_set]. rewrite !(right_id_L ∅ (∪)).
    repeat (split; [done|]). intros ch Hch. by apply elem_of_nil in Hch.
  - unfold channelStep at 1.
    destruct (bins cb !! c) as [bs|] eqn:Hbs; [|done].
    destruct (binValue bs _) as [b|] eqn:Hb; cbn [bind]; [|done].
    intros H. destruct (IH _ H) as (Hraw & Hsp & Hrel & Hncv & Hdb & Hdt & Hdv & Hch).
    cbn [raw s_setpoint s_relative s_NCV s_bins s_trend s_var] in *.
    rewrite dom_insert_L in Hdb. rewrite dom_insert_L in Hdt. rewrite dom_insert_L in Hdv.
    cbn [list_to_set].
    assert (∀ X : gset string, {[c]} ∪ X ∪ list_to_set l = X ∪ ({[c]} ∪ list_to_set l)) as Hset.
    { intros X. rewrite (comm_L (∪) {[c]} X). by rewrite <- (assoc_L (∪)). }
    rewrite Hset in Hdb, Hdt, Hdv.
    repeat (split; [done|]).
    intros ch [->|Hin]%elem_of_cons; [|by apply Hch].
    destruct (decide (c ∈ l)) as [Hc|Hc]; [by apply Hch|].
    clear IH Hch.
    assert (∀ (l : list string) (a a' : State),
      foldM (channelStep rows idx win cb r) a l = Ok a' → c ∉ l →
      s_trend a' !! c = s_trend a !! c ∧ s_var a' !! c = s_var a !! c ∧
      s_bins a' !! c = s_bins a !! c) as Hkeep.
    { clear. induction l as [|d l IH]; intros a a'; cbn [foldM].
      - by intros [= <-].
      - intros H Hd. apply not_elem_of_cons in Hd as [Hne Hd].
        unfold channelStep at 1 in H.
        destruct (bins cb !! d) as [bs|]; [|done].
        destruct (binValue bs _) as [b|]; cbn [bind] in H; [|done].
        destruct (IH _ _ H Hd) as (Ht & Hv & Hb).
        cbn [s_trend s_var s_bins] in *.
        rewrite lookup_insert_ne in Ht by done. rewrite lookup_insert_ne in Hv by done.
        rewrite lookup_insert_ne in Hb by done. done. }
    destruct (Hkeep _ _ _ H Hc) as (Ht & Hv & Hbb).
    cbn [s_trend s_var s_bins] in *. rewrite lookup_insert_eq in Ht.
    rewrite lookup_insert_eq in Hv. rewrite lookup_insert_eq in Hbb.
    split; [done|]. split; [done|]. by exists bs, b.
Qed.

Lemma ncv_fold (rules : list (string * NcvSpec)) (a : State) :
  let a' := fold_left ncvStep rules a in
  raw a' = raw a ∧ s_bins a' = s_bins a ∧ s_trend a' = s_trend a ∧ s_var a' = s_var a ∧
  s_setpoint a' = s_setpoint a ∧ s_relative a' = s_relative a ∧
  dom (s_NCV a') = dom (s_NCV a) ∪ list_to_set rules.*1 ∧
  (NoDup rules.*1 → ∀ k spec, (k, spec) ∈ rules → s_NCV a' !! k = Some (resolveTag a spec)).
Proof.
  cbv zeta. revert a. induction rules as [|[k spec] rules IH]; intros a; cbn [fold_left].
  - cbn [fmap list_fmap list_to_set]. rewrite (right_id_L ∅ (∪)).
    repeat (split; [done|]). intros _ k spec H. by apply elem_of_nil in H.
  - destruct (IH (ncvStep a (k, spec))) as (Hraw & Hb & Ht & Hv & Hsp & Hrel & Hd & Hncv).
    cbn [ncvStep raw s_bins s_trend s_var s_setpoint s_relative s_NCV fst snd] in *.
    repeat (split; [done|]). split.
    + rewrite Hd, dom_insert_L, fmap_cons. cbn [list_to_set fst].
      rewrite (comm_L (∪) {[k]} (dom (s_NCV a))). by rewrite <- (assoc_L (∪)).
    + rewrite fmap_cons. cbn [fst]. intros [Hk Hnd]%NoDup_cons k' spec' [E|Hin]%elem_of_cons.
      * injection E as -> ->.
        assert (∀ (rules : list (string * NcvSpec)) (a : State),
          k ∉ rules.*1 → s_NCV (fold_left ncvStep rules a) !! k = s_NCV a !! k) as Hkeep.
        { clear. induction rules as [|[k' s'] rules IH]; intros a Hk; cbn [fold_left]; [done|].
          rewrite fmap_cons in Hk. apply not_elem_of_cons in Hk as [Hne Hk].
          rewrite (IH _ Hk). cbn [ncvStep s_NCV fst snd]. by rewrite lookup_insert_ne. }
        rewrite (Hkeep rules _ Hk). cbn [ncvStep s_NCV fst snd]. by rewrite lookup_insert_eq.
      * rewrite (Hncv Hnd k' spec' Hin). unfold resolveTag, sourceTag.
        cbn [s_var s_trend s_setpoint s_relative s_bins]. done.
Qed.

(** The states [computeStates] returns, taken apart. *)
Lemma computeStates_inv rows cb states i s :
  computeStates rows cb = Ok states → states !! i = Some s →
  ∃ r s0,
    rows !! i = Some r ∧
    foldM (channelStep rows i (window cb) cb r) (emptyState r) (channels cb) = Ok s0 ∧
    s = fold_left ncvStep (ncvRules cb) (relativeStep r (setpointStep s0)).
Proof.
  intros H Hs. unfold computeStates in H.
  destruct (mapM_lookup _ _ _ _ _ H Hs) as ([j r] & Hj & Hst).
  rewrite list_lookup_imap in Hj. destruct (rows !! i) as [r'|] eqn:Hr; [|done].
  injection Hj as <- <-. cbn [fst snd] in Hst. unfold stateOf in Hst.
  destruct (foldM _ _ _) as [s0|] eqn:Hf; cbn [bind] in Hst; [|done].
  injection Hst as <-. by exists r', s0.
Qed.

Lemma setpointStep_fields s :
  raw (setpointStep s) = raw s ∧ s_bins (setpointStep s) = s_bins s ∧
  s_trend (setpointStep s) = s_trend s ∧ s_var (setpointStep s) = s_var s ∧
  s_relative (setpointStep s) = s_relative s ∧ s_NCV (setpointStep s) = s_NCV s.
Proof. unfold setpointStep. by destruct (s_bins s !! "temp"). Qed.

Lemma relativeStep_fields r s :
  raw (relativeStep r s) = raw s ∧ s_bins (relativeStep r s) = s_bins s ∧
  s_trend (relativeStep r s) = s_trend s ∧ s_var (relativeStep r s) = s_var s ∧
  s_setpoint (relativeStep r s) = s_setpoint s ∧ s_NCV (relativeStep r s) = s_NCV s.
Proof. unfold relativeStep. by destruct (_ && _). Qed.

(** X10: in the state of row [i], every tracked channel has a bin, a trend and
    a variance, and no other channel has: the bin is the one [binValue] gives
    the row's value ([0] when it is not a number), the trend and the variance
    are those of [rolling] at index [i] with the window of the codebook; [raw]
    is the row itself. *)
Theorem computeStates_channels rows cb states i s :
  computeStates rows cb = Ok states → states !! i = Some s →
  ∃ r, rows !! i = Some r ∧ raw s = r ∧
    dom (s_bins s) = list_to_set (channels cb) ∧
    dom (s_trend s) = list_to_set (channels cb) ∧
    dom (s_var s) = list_to_set (channels cb) ∧
    ∀ ch, ch ∈ channels cb →
      s_trend s !! ch = Some (trend (rolling rows i (window cb) ch)) ∧
      s_var s !! ch = Some (variance (rolling rows i (window cb) ch)) ∧
      ∃ bs b, bins cb !! ch = Some bs ∧ binValue bs (cellNum ch r) = Ok b ∧
              s_bins s !! ch = Some b.
Proof.
  intros H Hs. destruct (computeStates_inv _ _ _ _ _ H Hs) as (r & s0 & Hr & Hf & ->).
  exists r. split; [done|].
  destruct (channels_fold _ _ _ _ _ _ _ _ Hf) as (Hraw & _ & _ & _ & Hdb & Hdt & Hdv & Hch).
  destruct (ncv_fold (ncvRules cb) (relativeStep r (setpointStep s0)))
    as (-> & -> & -> & -> & _).
  destruct (relativeStep_fields r (setpointStep s0)) as (-> & -> & -> & -> & _).
  destruct (setpointStep_fields s0) as (-> & -> & -> & -> & _).
  cbn [emptyState raw s_bins s_trend s_var] in *.
  rewrite dom_empty_L, (left_id_L ∅ (∪)) in Hdb. rewrite dom_empty_L, (left_id_L ∅ (∪)) in Hdt.
  rewrite dom_empty_L, (left_id_L ∅ (∪)) in Hdv.
  by repeat (split; [done|]).
Qed.

Lemma computeStates_channels_witness :
  ∃ s r, rows_sample !! 2 = Some r ∧ raw s = r ∧
    s_trend s !! "seismic" = Some (trend (rolling rows_sample 2 (window geologyLike) "seismic")).
Proof.
  destruct (computeStates_ok rows_sample geologyLike allBinned_geologyLike) as (states & E & Hlen).
  destruct (states !! 2) as [s|] eqn:Hs.
  2:{ apply lookup_ge_None in Hs. rewrite Hlen in Hs. vm_compute in Hs. lia. }
  destruct (computeStates_channels _ _ _ _ _ E Hs) as (r & Hr & Hraw & _ & _ & _ & Hch).
  exists s, r. split; [exact Hr|]. split; [exact Hraw|].
  exact (proj1 (Hch "seismic" ltac:(by_compute))).
Defined.

Lemma resolveTag_ext s s' spec :
  s_bins s = s_bins s' → s_trend s = s_trend s' → s_var s = s_var s' →
  s_setpoint s = s_setpoint s' → s_relative s = s_relative s' →
  resolveTag s spec = resolveTag s' spec.
Proof. intros Hb Ht Hv Hs Hr. unfold resolveTag, sourceTag. by rewrite Hb, Ht, Hv, Hs, Hr. Qed.

(** X11: in every state, [setpoint.temp] is the bin of [temp] (absent when
    [temp] is not tracked); the relative tag is there exactly when the row
    has the keys [lum] and [transpiration], and is one of three labels; and
    there is one NCV tag per rule of the codebook: when the rules have
    distinct names, the tag of a rule is the label it gives the state. *)
Theorem computeStates_tags rows cb states i s :
  computeStates rows cb = Ok states → states !! i = Some s →
  s_setpoint s !! "temp" = s_bins s !! "temp" ∧
  (is_Some (s_relative s !! "lum_vs_transpiration") ↔
     is_Some (raw s !! "lum") ∧ is_Some (raw s !! "transpiration")) ∧
  (∀ t, s_relative s !! "lum_vs_transpiration" = Some t →
     t ∈ ["lum_dominant"; "transpiration_dominant"; "balanced"]) ∧
  dom (s_NCV s) = list_to_set (ncvRules cb).*1 ∧
  (NoDup (ncvRules cb).*1 →
     ∀ k spec, (k, spec) ∈ ncvRules cb → s_NCV s !! k = Some (resolveTag s spec)).
Proof.
  intros H Hs. destruct (computeStates_inv _ _ _ _ _ H Hs) as (r & s0 & Hr & Hf & ->).
  destruct (channels_fold _ _ _ _ _ _ _ _ Hf) as (Hraw & Hsp0 & Hrel0 & Hncv0 & _).
  destruct (ncv_fold (ncvRules cb) (relativeStep r (setpointStep s0))) as (Eraw & Eb & Et & Ev & Esp & Erel & Hd & Hncv).
  destruct (relativeStep_fields r (setpointStep s0)) as (Eraw2 & Eb2 & Et2 & Ev2 & Esp2 & Encv2).
  destruct (setpointStep_fields s0) as (Eraw1 & Eb1 & Et1 & Ev1 & Erel1 & Encv1).
  cbn [emptyState raw s_setpoint s_relative s_NCV] in *.
  rewrite Eraw, Eb, Esp, Erel.
  assert (s_setpoint (setpointStep s0) !! "temp" = s_bins s0 !! "temp") as Htemp.
  { unfold setpointStep. destruct (s_bins s0 !! "temp") eqn:E; cbn [s_setpoint].
    - by rewrite lookup_insert_eq.
    - by rewrite Hsp0, lookup_empty. }
  assert (s_relative (setpointStep s0) = ∅) as Hrel1 by (etrans; [exact Erel1|exact Hrel0]).
  assert (raw (setpointStep s0) = r) as Hraw1 by (etrans; [exact Eraw1|exact Hraw]).
  split.
  { rewrite Esp2, Eb2. etrans; [exact Htemp|]. symmetry. exact (f_equal (.!! "temp") Eb1). }
  rewrite Eraw2, Hraw1.
  assert (H2 : (is_Some (s_relative (relativeStep r (setpointStep s0)) !! "lum_vs_transpiration") ↔
                 is_Some (r !! "lum") ∧ is_Some (r !! "transpiration")) ∧
               ∀ t, s_relative (relativeStep r (setpointStep s0)) !! "lum_vs_transpiration" = Some t →
                 t ∈ ["lum_dominant"; "transpiration_dominant"; "balanced"]).
  { unfold relativeStep.
    destruct (bool_decide (is_Some (r !! "lum"))) eqn:E1;
      destruct (bool_decide (is_Some (r !! "transpiration"))) eqn:E2;
      cbn [andb s_relative];
      try apply bool_decide_eq_true in E1; try apply bool_decide_eq_true in E2;
      try apply bool_decide_eq_false in E1; try apply bool_decide_eq_false in E2.
    2-4: rewrite Hrel1, lookup_empty; split; [split; [by intros []|tauto]|done].
    rewrite lookup_insert_eq. split; [done|].
    intros t [= <-].
    repeat match goal with |- context [if ?c then _ else _] => destruct c end;
      rewrite !elem_of_cons; tauto. }
  destruct H2 as [H2a H2b]. split; [done|]. split; [done|]. split.
  - rewrite Hd, Encv2. replace (s_NCV (setpointStep s0)) with (∅ : gmap string (option string)).
    + by rewrite dom_empty_L, (left_id_L ∅ (∪)).
    + symmetry. etrans; [exact Encv1|exact Hncv0].
  - intros Hnd k spec Hin. rewrite (Hncv Hnd k spec Hin).
    f_equal. by apply resolveTag_ext.
Qed.

Lemma computeStates_tags_witness :
  ∃ s, s_setpoint s !! "temp" = s_bins s !! "temp" ∧
       s_NCV s !! "mood" = Some (resolveTag s {| from := "seismic.var"; map := [("high", "strained"); ("low", "reflective")] |}).
Proof.
  destruct (computeStates_ok rows_sample geologyLike allBinned_geologyLike) as (states & E & Hlen).
  destruct (states !! 2) as [s|] eqn:Hs.
  2:{ apply lookup_ge_None in Hs. rewrite Hlen in Hs. vm_compute in Hs. lia. }
  destruct (computeStates_tags _ _ _ _ _ E Hs) as (Ht & _ & _ & _ & Hncv).
  exists s. split; [exact Ht|].
  apply Hncv.
  - by_compute.
  - by left.
Defined.

(** ** The planner: order and number of the beats *)

Lemma scoredBeats_planScore regime s T recent :
  scoredBeats regime s T recent =
    sortScored ((λ fn, (fn, planScore regime s recent fn)) <$> feasibleBeats regime T).
Proof. reflexivity. Qed.

Ltac eval_eqb :=
  repeat match goal with
  | |- context [String.eqb ?a ?b] =>
      let v := eval vm_compute in (String.eqb a b) in change (String.eqb a b) with v
  end.

Lemma scoreBeat_range fn regime s :
  ∃ q, scoreBeat fn regime s = Fin q ∧
       (baseScore regime fn <= q)%Q ∧ (q <= baseScore regime fn + 0.6)%Q.
Proof.
  destruct (decide (fn ∈ bonusBeats)) as [Hin|Hout].
  - unfold bonusBeats in Hin. unfold scoreBeat, bonus, baseScore.
    repeat (apply elem_of_cons in Hin as [->|Hin]);
      [..|by apply elem_of_nil in Hin];
      eval_eqb; cbv iota zeta;
      repeat match goal with
             | |- context [when ?c _ _] =>
                 lazymatch c with true => fail | false => fail | _ => idtac end;
                 generalize c; intros []
             end;
      (eexists; split; [reflexivity|]; split; by vm_compute).
  - exists (baseScore regime fn). split; [by apply scoreBeat_plain|]. split; lra.
Qed.

Lemma planScore_range regime s recent fn :
  inPalette regime fn = true →
  ∃ q, planScore regime s recent fn = Fin q ∧
       if includes (lastN 4 recent) fn then (0.4 <= q ∧ q <= 0.64)%Q
       else (1 <= q ∧ q <= 1.6)%Q.
Proof.
  intros Hp. unfold planScore. cbv zeta.
  destruct (scoreBeat_range fn regime s) as (q & -> & Hlo & Hhi).
  unfold baseScore in *. rewrite Hp in *.
  destruct (includes _ fn).
  - cbn [mul]. eexists. split; [reflexivity|]. rewrite Qred_correct. lra.
  - exists q. split; [done|lra].
Qed.

Lemma planScore_finite regime s recent fn : ∃ q, planScore regime s recent fn = Fin q.
Proof.
  unfold planScore. cbv zeta.
  destruct (scoreBeat_range fn regime s) as (q & -> & _).
  destruct (includes _ fn); cbn [mul]; by eexists.
Qed.

Lemma after_Fin a b p q :
  a.2 = Fin p → b.2 = Fin q → after a b = true ↔ (p < q)%Q.
Proof.
  intros Ha Hb. unfold after. rewrite Ha, Hb. cbn. unfold Qlt_bool.
  rewrite negb_true_iff, <- not_true_iff_false, Qle_bool_iff, Qred_correct. lra.
Qed.

Lemma le_Fin p q : le (Fin p) (Fin q) = true ↔ (p <= q)%Q.
Proof. cbn. apply Qle_bool_iff. Qed.

Lemma insertSorted_perm x l : insertSorted x l ≡ₚ x :: l.
Proof.
  induction l as [|y r IH]; simpl; [done|].
  destruct (after y x); [done|]. rewrite IH. apply Permutation_swap.
Qed.

Lemma sortScored_perm l : sortScored l ≡ₚ l.
Proof.
  unfold sortScored.
  assert (∀ acc, fold_left (λ acc x, insertSorted x acc) l acc ≡ₚ l ++ acc) as H.
  { induction l as [|x r IH]; intros acc; simpl; [done|].
    rewrite IH, insertSorted_perm. by rewrite Permutation_middle. }
  by rewrite H, app_nil_r.
Qed.

Lemma descending_insert x l :
  (∃ q, x.2 = Fin q) → Forall (λ y, ∃ q, y.2 = Fin q) l →
  descending l → descending (insertSorted x l).
Proof.
  intros [q Hx]. induction l as [|y r IH]; intros Hfin Hl; simpl.
  - by split.
  - apply Forall_cons in Hfin as [[p Hy] Hfin]. destruct Hl as [Hy_r Hr].
    destruct (after y x) eqn:E.
    + apply (after_Fin _ _ p q Hy Hx) in E. split; [|by split].
      apply Forall_cons. split.
      * rewrite Hx, Hy. apply le_Fin. lra.
      * rewrite Forall_forall in Hy_r, Hfin. apply Forall_forall. intros z Hz.
        specialize (Hy_r z Hz). destruct (Hfin z Hz) as [pz Ez].
        rewrite Ez, Hy in Hy_r. rewrite Ez, Hx. apply le_Fin. apply le_Fin in Hy_r. lra.
    + split; [|by apply IH].
      apply Forall_forall. intros z Hz. apply elem_of_insertSorted in Hz as [->|Hz].
      * rewrite Hx, Hy. apply le_Fin.
        destruct (Qlt_le_dec p q) as [Hlt|Hle]; [|done].
        apply (after_Fin _ _ p q Hy Hx) in Hlt. congruence.
      * rewrite Forall_forall in Hy_r. by apply Hy_r.
Qed.

Lemma sortScored_descending l :
  Forall (λ y, ∃ q, y.2 = Fin q) l → descending (sortScored l).
Proof.
  unfold sortScored.
  assert (∀ acc, Forall (λ y : string * num, ∃ q, y.2 = Fin q) l →
                 Forall (λ y : string * num, ∃ q, y.2 = Fin q) acc → descending acc →
                 descending (fold_left (λ acc x, insertSorted x acc) l acc)) as H.
  { induction l as [|x r IH]; intros acc Hl Hacc Hd; simpl; [done|].
    apply Forall_cons in Hl as [Hx Hl]. apply IH; [done| |by apply descending_insert].
    apply Forall_forall. intros z Hz. apply elem_of_insertSorted in Hz as [->|Hz]; [done|].
    rewrite Forall_forall in Hacc. by apply Hacc. }
  intros Hl. by apply H.
Qed.

Lemma descending_lookup l i j a b :
  descending l → i < j → l !! i = Some a → l !! j = Some b → le b.2 a.2 = true.
Proof.
  revert i j. induction l as [|x r IH]; intros i j Hd Hij Hi Hj; [done|].
  destruct Hd as [Hx Hr]. destruct j as [|j]; [lia|]. destruct i as [|i].
  - cbn in Hi, Hj. injection Hi as ->. rewrite Forall_forall in Hx.
    apply Hx. by eapply list_elem_of_lookup_2.
  - cbn in Hi, Hj. apply (IH i j); [done|lia|done|done].
Qed.

Lemma scoredBeats_descending regime s T recent :
  descending (scoredBeats regime s T recent).
Proof.
  rewrite scoredBeats_planScore. apply sortScored_descending.
  apply Forall_forall. intros [fn sc] (g & [= -> ->] & _)%list_elem_of_fmap.
  apply planScore_finite.
Qed.

Lemma scoredBeats_names regime s T recent :
  (scoredBeats regime s T recent).*1 ≡ₚ feasibleBeats regime T.
Proof.
  rewrite scoredBeats_planScore, sortScored_perm, <- list_fmap_compose.
  induction (feasibleBeats regime T) as [|x r IH]; [done|]. cbn. by rewrite IH.
Qed.

Lemma scoredBeats_entry regime s T recent fn sc :
  (fn, sc) ∈ scoredBeats regime s T recent → sc = planScore regime s recent fn.
Proof.
  rewrite scoredBeats_planScore, elem_of_sortScored.
  by intros (g & [= -> ->] & _)%list_elem_of_fmap.
Qed.

Lemma uniq_NoDup seen l : NoDup (uniq seen l) ∧ ∀ x, x ∈ uniq seen l → x ∉ seen.
Proof.
  revert seen. induction l as [|x r IH]; intros seen; simpl.
  - split; [constructor|]. intros x H. by apply elem_of_nil in H.
  - unfold includes. case_bool_decide as Hx; [apply IH|].
    destruct (IH (x :: seen)) as [Hnd Hout]. split.
    + constructor; [|done]. intros H%Hout. apply H. by left.
    + intros y [->|Hy]%elem_of_cons; [done|].
      intros H. apply (Hout y Hy). by right.
Qed.

Lemma feasibleBeats_NoDup regime T : NoDup (feasibleBeats regime T).
Proof. unfold feasibleBeats. apply NoDup_filter, uniq_NoDup. Qed.

Lemma chosen_eq regime s T recent want :
  chosen regime s T recent want = take want (scoredBeats regime s T recent).*1.
Proof. unfold chosen. by rewrite chooseBeatsPlanned_eq. Qed.

Lemma chosen_outranks regime s T recent want b c :
  b ∈ chosen regime s T recent want →
  c ∈ feasibleBeats regime T → c ∉ chosen regime s T recent want →
  le (planScore regime s recent c) (planScore regime s recent b) = true.
Proof.
  rewrite chosen_eq. intros Hb Hc Hnc.
  apply elem_of_take in Hb as (i & Hi & Hlt).
  rewrite <- scoredBeats_names in Hc. apply list_elem_of_lookup_1 in Hc as [j Hj].
  assert (want ≤ j) as Hge.
  { destruct (decide (want ≤ j)); [done|]. exfalso. apply Hnc.
    apply elem_of_take. exists j. split; [done|lia]. }
  rewrite list_lookup_fmap in Hi, Hj.
  destruct (scoredBeats regime s T recent !! i) as [[b' sb]|] eqn:Ei; [|done].
  destruct (scoredBeats regime s T recent !! j) as [[c' sc]|] eqn:Ej; [|done].
  cbn in Hi, Hj. injection Hi as ->. injection Hj as ->.
  pose proof (descending_lookup _ i j _ _ (scoredBeats_descending regime s T recent)
                ltac:(lia) Ei Ej) as Hle.
  apply list_elem_of_lookup_2 in Ei, Ej.
  apply scoredBeats_entry in Ei, Ej. cbn in Hle. by rewrite <- Ei, <- Ej.
Qed.


(** X13: the beats chosen are distinct, and there are as many of them as
    asked for, or all the feasible ones when there are fewer. *)
Theorem chosen_count regime s T recent want :
  NoDup (chosen regime s T recent want) ∧
  length (chosen regime s T recent want) = Nat.min want (length (feasibleBeats regime T)).
Proof.
  rewrite chosen_eq. split.
  - assert (NoDup (scoredBeats regime s T recent).*1) as Hnd.
    { rewrite scoredBeats_names. apply feasibleBeats_NoDup. }
    rewrite <- (take_drop want) in Hnd. by apply NoDup_app in Hnd as [? _].
  - by rewrite length_take, scoredBeats_names.
Qed.

(** X14: every chosen beat scores at least as high as every feasible beat
    that was left out. *)
Theorem chosen_are_best regime s T recent want b c :
  b ∈ chosen regime s T recent want →
  c ∈ feasibleBeats regime T → c ∉ chosen regime s T recent want →
  le (planScore regime s recent c) (planScore regime s recent b) = true.
Proof. apply chosen_outranks. Qed.

(** X15: the cooldown dominates the bonuses: a beat among the last four of
    the history is chosen only when every feasible beat outside the last
    four is chosen too. *)
Theorem cooldown_dominates regime s T recent want b c :
  b ∈ chosen regime s T recent want → b ∈ lastN 4 recent →
  c ∈ feasibleBeats regime T → c ∉ lastN 4 recent →
  c ∈ chosen regime s T recent want.
Proof.
  intros Hb Hbr Hc Hcr.
  destruct (decide (c ∈ chosen regime s T recent want)) as [|Hnc]; [done|exfalso].
  pose proof (chosen_outranks _ _ _ _ _ _ _ Hb Hc Hnc) as Hle.
  assert (inPalette regime b = true) as Hpb.
  { apply ALL_BEATS_inPalette. eapply feasibleBeats_spec, chosen_feasible, Hb. }
  assert (inPalette regime c = true) as Hpc.
  { by apply ALL_BEATS_inPalette, (feasibleBeats_spec regime T). }
  destruct (planScore_range regime s recent b Hpb) as (qb & Eb & Hqb).
  destruct (planScore_range regime s recent c Hpc) as (qc & Ec & Hqc).
  unfold includes in Hqb, Hqc.
  rewrite bool_decide_eq_true_2 in Hqb by done.
  rewrite bool_decide_eq_false_2 in Hqc by done.
  rewrite Eb, Ec in Hle. apply le_Fin in Hle. lra.
Qed.

Lemma chosen_are_best_witness :
  "fn.noise_far" ∈ chosen horror shearState ∅ ["fn.road_walk"] 2 ∧
  "fn.road_walk" ∈ feasibleBeats horror ∅ ∧
  ("fn.road_walk" ∉ chosen horror shearState ∅ ["fn.road_walk"] 2) ∧
  le (planScore horror shearState ["fn.road_walk"] "fn.road_walk")
     (planScore horror shearState ["fn.road_walk"] "fn.noise_far") = true.
Proof.
  assert ("fn.noise_far" ∈ chosen horror shearState ∅ ["fn.road_walk"] 2) as Hb by by_compute.
  assert ("fn.road_walk" ∈ feasibleBeats horror ∅) as Hc by by_compute.
  assert ("fn.road_walk" ∉ chosen horror shearState ∅ ["fn.road_walk"] 2) as Hn by by_compute.
  repeat (split; [assumption|]).
  exact (chosen_are_best horror shearState ∅ ["fn.road_walk"] 2 _ _ Hb Hc Hn).
Defined.

Lemma cooldown_dominates_witness :
  "fn.road_walk" ∈ chosen horror shearState ∅ ["fn.road_walk"] 9 ∧
  "fn.road_walk" ∈ lastN 4 ["fn.road_walk"] ∧
  "fn.eat" ∈ feasibleBeats horror ∅ ∧
  ("fn.eat" ∉ lastN 4 ["fn.road_walk"]) ∧
  "fn.eat" ∈ chosen horror shearState ∅ ["fn.road_walk"] 9.
Proof.
  assert ("fn.road_walk" ∈ chosen horror shearState ∅ ["fn.road_walk"] 9) as Hb by by_compute.
  assert ("fn.road_walk" ∈ lastN 4 ["fn.road_walk"]) as Hbr by by_compute.
  assert ("fn.eat" ∈ feasibleBeats horror ∅) as Hc by by_compute.
  assert ("fn.eat" ∉ lastN 4 ["fn.road_walk"]) as Hcr by by_compute.
  repeat (split; [assumption|]).
  exact (cooldown_dominates horror shearState ∅ ["fn.road_walk"] 9 _ _ Hb Hbr Hc Hcr).
Defined.

(** ** The classifier: the top regime and the inertia mix *)

Lemma lt_Fin p q : lt (Fin p) (Fin q) = true ↔ (p < q)%Q.
Proof.
  cbn. unfold Qlt_bool.
  rewrite negb_true_iff, <- not_true_iff_false, Qle_bool_iff. lra.
Qed.

Ltac split_lt :=
  repeat match goal with
  | |- context [lt (Fin ?x) (Fin ?y)] =>
      let E := fresh "E" in
      destruct (lt (Fin x) (Fin y)) eqn:E;
      [apply lt_Fin in E
      |apply not_true_iff_false in E; rewrite lt_Fin in E];
      cbn [wget mkW w_horror w_trickster w_thriller w_fairytale w_shamanic]
  end.

Lemma topRegime_mkW a b c d e :
  let w := mkW a b c d e in
  (∀ k, le (wget w k) (wget w (topRegime w)) = true) ∧
  (∀ i j k, REGIME_LIST !! i = Some k → REGIME_LIST !! j = Some (topRegime w) → i < j →
            lt (wget w k) (wget w (topRegime w)) = true).
Proof.
  intros w. subst w. unfold topRegime.
  cbn [fold_left REGIME_LIST wget mkW w_horror w_trickster w_thriller w_fairytale w_shamanic].
  unfold gt. split_lt.
  all: split;
    [intros []; cbn [wget mkW w_horror w_trickster w_thriller w_fairytale w_shamanic];
     apply le_Fin; lra
    |intros i j k Hi Hj Hij;
     destruct j as [|[|[|[|[|j]]]]]; try discriminate Hj; try lia;
     destruct i as [|[|[|[|[|i]]]]]; try lia;
     cbn in Hi; injection Hi as <-;
     cbn [wget mkW w_horror w_trickster w_thriller w_fairytale w_shamanic];
     apply lt_Fin; lra].
Qed.

Lemma mix_worth prev now :
  finiteW prev → finiteW now → worth (wsum prev) 1 → worth (wsum now) 1 →
  ∀ k, ∃ a b, wget prev k = Fin a ∧ wget now k = Fin b ∧
              worth (wget (mixWeights prev now (Fin 0.7)) k) (0.7 * a + 0.3 * b).
Proof.
  intros Hp Hn Sp Sn k.
  destruct (worth_nonneg_finite _ Hp) as (a1 & a2 & a3 & a4 & a5 & -> & Ha).
  destruct (worth_nonneg_finite _ Hn) as (b1 & b2 & b3 & b4 & b5 & -> & Hb).
  pose proof (worth_fun _ _ _ Sp (wsum_mkW _ _ _ _ _)) as Ea.
  pose proof (worth_fun _ _ _ Sn (wsum_mkW _ _ _ _ _)) as Eb.
  unfold mixWeights.
  set (w := wmap _).
  assert (∀ k, ∃ a b, wget (mkW a1 a2 a3 a4 a5) k = Fin a ∧ wget (mkW b1 b2 b3 b4 b5) k = Fin b ∧
                      worth (wget w k) (0.7 * a + 0.3 * b)) as Hw.
  { intros k'. subst w. rewrite wget_wmap.
    destruct k'; cbn [wget mkW w_horror w_trickster w_thriller w_fairytale w_shamanic];
      do 2 eexists; (split; [reflexivity|]); (split; [reflexivity|]);
      (apply add_worth; [apply mul_worth; apply worth_Fin|]);
      (eapply worth_eq; [apply mul_worth; [apply sub_worth; apply worth_Fin|apply worth_Fin]|]);
      lra. }
  clearbody w.
  assert (finiteW w) as Hf.
  { intros k'. destruct (Hw k') as (a & b & Ea' & Eb' & Hk).
    apply worth_inv in Hk as (p & Ep & Hpq). exists p. split; [done|].
    rewrite Hpq.
    destruct (Hp k') as (a' & Ea'' & ?), (Hn k') as (b' & Eb'' & ?).
    rewrite Ea' in Ea''. rewrite Eb' in Eb''. injection Ea'' as ->. injection Eb'' as ->. lra. }
  assert (worth (wsum w) 1) as Hs.
  { unfold wsum. cbn [fold_left REGIME_LIST].
    destruct (Hw horror) as (x1 & y1 & X1 & Y1 & W1), (Hw trickster) as (x2 & y2 & X2 & Y2 & W2),
      (Hw thriller) as (x3 & y3 & X3 & Y3 & W3), (Hw fairytale) as (x4 & y4 & X4 & Y4 & W4),
      (Hw shamanic) as (x5 & y5 & X5 & Y5 & W5).
    cbn in X1, X2, X3, X4, X5, Y1, Y2, Y3, Y4, Y5.
    injection X1 as <-. injection X2 as <-. injection X3 as <-. injection X4 as <-.
    injection X5 as <-. injection Y1 as <-. injection Y2 as <-. injection Y3 as <-.
    injection Y4 as <-. injection Y5 as <-.
    eapply worth_eq;
      [repeat apply add_worth; first [apply worth_Fin|eassumption]|]. lra. }
  destruct (normalize_cases w 1 Hf Hs) as [_ Hdiv].
  destruct (Hdiv ltac:(lra) k) as (q & Eq & Hq).
  destruct (Hw k) as (a & b & Ea' & Eb' & Hk).
  exists a, b. split; [done|]. split; [done|].
  rewrite Eq in Hk. cbn in Hk. eapply worth_eq; [exact Hq|]. rewrite Hk. field.
Qed.

(** X18: the shamanic weight of [instantRegimeWeights] is positive for every
    state: its raw value is at least 0.1, so the raw weights never sum to
    zero. *)
Theorem instant_shamanic_positive s :
  ∃ q, wget (instantRegimeWeights s) shamanic = Fin q ∧ (0 < q)%Q.
Proof.
  pose proof (instant_finite s) as [Hfin Hsum].
  destruct (Hfin shamanic) as (q & Eq & Hq). exists q. split; [done|].
  revert Hfin Hsum Eq. unfold instantRegimeWeights. cbv zeta.
  set (w := Build_Weights _ _ _ _ _).
  assert (finiteW w) as Hw.
  { intros []; cbn [w wget w_horror w_trickster w_thriller w_fairytale w_shamanic];
      repeat apply add_nonneg; try (apply when_nonneg; lra); apply Fin_nonneg; lra. }
  assert (∃ e, wget w shamanic = Fin e ∧ (0.1 <= e)%Q) as (e & Ee & He).
  { cbn [w wget w_shamanic].
    repeat match goal with
           | |- context [when ?c _ _] =>
               lazymatch c with true => fail | false => fail | _ => idtac end;
               generalize c; intros []
           end;
      (eexists; split; [reflexivity|by vm_compute]). }
  destruct (worth_nonneg_finite _ Hw) as (a1 & a2 & a3 & a4 & a5 & Ew & Ha).
  clearbody w. subst w. cbn in Ee. injection Ee as ->.
  destruct (normalize_mkW a1 a2 a3 a4 e Ha) as [_ Hdiv].
  destruct Hdiv as (a' & b' & c' & d' & e' & -> & _ & _ & _ & _ & He'); [lra|].
  intros _ _ [= <-]. rewrite He'.
  apply Qlt_shift_div_l; lra.
Qed.

(** X16: for finite weights, none negative, [topRegime] returns a regime of
    largest weight, and the first such of [REGIME_LIST]: every regime listed
    before it weighs strictly less. *)
Theorem topRegime_argmax w :
  finiteW w →
  (∀ k, le (wget w k) (wget w (topRegime w)) = true) ∧
  (∀ i j k, REGIME_LIST !! i = Some k → REGIME_LIST !! j = Some (topRegime w) → i < j →
            lt (wget w k) (wget w (topRegime w)) = true).
Proof.
  intros (a & b & c & d & e & -> & _)%worth_nonneg_finite. apply topRegime_mkW.
Qed.

Lemma topRegime_argmax_witness :
  finiteW (mkW 0.1 0.4 0.1 0.4 0) ∧
  topRegime (mkW 0.1 0.4 0.1 0.4 0) = trickster ∧
  le (wget (mkW 0.1 0.4 0.1 0.4 0) fairytale)
     (wget (mkW 0.1 0.4 0.1 0.4 0) (topRegime (mkW 0.1 0.4 0.1 0.4 0))) = true.
Proof.
  assert (finiteW (mkW 0.1 0.4 0.1 0.4 0)) as Hf.
  { apply finiteW_mkW. repeat split; by vm_compute. }
  split; [exact Hf|]. split; [reflexivity|].
  exact (proj1 (topRegime_argmax _ Hf) fairytale).
Defined.



(** ** The loop of [onGenerate]: history, tokens, weights and lines *)

Section Narrative.
Variable surfaces : list Surface.
Variable states : list State.
Variable intents : list (list string).

Lemma remember_from (l beats : list string) :
  fold_left remember beats (lastN 16 l) = lastN 16 (l ++ beats).
Proof.
  revert l. induction beats as [|b r IH]; intros l; cbn [fold_left].
  - by rewrite app_nil_r.
  - rewrite remember_lastN, IH. by rewrite <- app_assoc.
Qed.

(** X19: the history the planner's cooldown reads is, at every point of the
    run, the last 16 of the beats planned so far. *)
Theorem recentBeats_last16 n :
  recentBeats (runPrefix surfaces n states intents) =
    lastN 16 (planned (runPrefix surfaces n states intents)).
Proof.
  apply (runPrefix_ind surfaces states intents (λ st, recentBeats st = lastN 16 (planned st))).
  - reflexivity.
  - intros st i s _ Hst. rewrite loopBody_eq. cbv zeta. cbn [recentBeats planned].
    rewrite Hst. apply remember_from.
Qed.

Lemma runPrefix_0 : runPrefix surfaces 0 states intents = initLoop surfaces.
Proof. unfold runPrefix. by rewrite take_0. Qed.

Lemma runPrefix_past n :
  states !! n = None →
  runPrefix surfaces (S n) states intents = runPrefix surfaces n states intents.
Proof.
  intros H%lookup_ge_None. by rewrite !runPrefix_ge by lia.
Qed.

Lemma pushLine_length o line : length (pushLine [] o line) ≤ 1.
Proof. unfold pushLine. destruct (String.eqb line ""); cbn; lia. Qed.

Lemma bridgeLines_length b : length (bridgeLines b) ≤ 1.
Proof. destruct b; cbn; lia. Qed.

Lemma beatLines_length NCV beats : length (beatLines surfaces NCV beats) ≤ length beats.
Proof.
  induction beats as [|b r IH]; [cbn; lia|].
  rewrite beatLines_cons, length_app. pose proof (pushLine_length (Beat b)
    (pickSurfaceText surfaces b NCV)). cbn [length]. lia.
Qed.

Lemma extraLines_length NCV i : length (extraLines surfaces NCV intents i) ≤ 1.
Proof.
  unfold extraLines, emitExtra. destruct (default [] (intents !! i)) as [|f r]; cbn; [lia|].
  apply pushLine_length.
Qed.

Lemma stepBeats_length st i s : length (stepBeats states st i s) ≤ 3.
Proof. apply chosen_length. Qed.

Lemma out_length n :
  2 ≤ length (out (runPrefix surfaces n states intents)) ≤ 2 + 5 * n ∧
  length (planned (runPrefix surfaces n states intents)) ≤ 3 * n.
Proof.
  induction n as [|n IH]; [rewrite runPrefix_0; cbn; lia|].
  destruct (states !! n) as [s|] eqn:E.
  - rewrite (runPrefix_S _ _ _ _ _ E), loopBody_eq. cbv zeta. cbn [out planned].
    rewrite !length_app.
    pose proof (bridgeLines_length
      (allowedBridge (prevRegime (runPrefix surfaces n states intents))
         (classified (runPrefix surfaces n states intents) n s))).
    pose proof (beatLines_length (s_NCV (withLedger n s))
      (stepBeats states (runPrefix surfaces n states intents) n s)).
    pose proof (extraLines_length (s_NCV (withLedger n s)) n).
    pose proof (stepBeats_length (runPrefix surfaces n states intents) n s).
    lia.
  - rewrite (runPrefix_past _ E). lia.
Qed.

Lemma bridge_text_nonempty prev cur b :
  allowedBridge prev cur = Some b → default "undefined" (BRIDGE_FNS !! b) ≠ "".
Proof.
  destruct prev, cur; vm_compute; intros E; try discriminate E;
    injection E as <-; vm_compute; discriminate.
Qed.

Lemma orElse_nonempty a b : b ≠ "" → orElse a b ≠ "".
Proof. unfold orElse. by destruct (String.eqb_spec a ""). Qed.

Lemma out_nonempty n (l : Line) :
  l ∈ out (runPrefix surfaces n states intents) → l.2 ≠ "".
Proof.
  revert l.
  apply (runPrefix_ind surfaces states intents (λ st, ∀ l : Line, l ∈ out st → l.2 ≠ "")).
  - intros l. cbn [initLoop out]. rewrite !elem_of_cons.
    intros [->|[->|H]]; [done|by apply orElse_nonempty|by apply elem_of_nil in H].
  - intros st i s _ Hst l. rewrite loopBody_eq. cbv zeta. cbn [out].
    rewrite !elem_of_app. intros [H|[H|[H|H]]].
    + by apply Hst.
    + unfold bridgeLines, pushBridge in H.
      destruct (allowedBridge (prevRegime st) (classified st i s)) as [b|] eqn:E.
      * apply list_elem_of_singleton in H as ->. by eapply bridge_text_nonempty.
      * by apply elem_of_nil in H.
    + by apply elem_of_beatLines in H as (fn & _ & _ & Hne).
    + unfold extraLines, emitExtra in H.
      destruct (default [] (intents !! i)) as [|f r]; cbn in H.
      * by apply elem_of_nil in H.
      * by apply elem_of_pushLine in H as [-> Hne].
Qed.

(** X21: every running weight stays positive through the run: the inertia
    mix never lets a regime drop to zero. *)
Theorem running_weights_positive n k :
  ∃ q, wget (prevWeights (runPrefix surfaces n states intents)) k = Fin q ∧ (0 < q)%Q.
Proof.
  revert k.
  apply (runPrefix_ind surfaces states intents
           (λ st, (finiteW (prevWeights st) ∧ worth (wsum (prevWeights st)) 1) ∧
                  ∀ k, ∃ q, wget (prevWeights st) k = Fin q ∧ (0 < q)%Q)).
  - split; [split; [apply finiteW_uniform|apply wsum_uniform]|].
    intros []; cbn; eexists; (split; [reflexivity|lra]).
  - intros st i s _ [[Hf Hs] Hpos]. rewrite loopBody_eq. cbv zeta. cbn [prevWeights].
    pose proof (instant_finite (withLedger i s)) as [Hfi Hsi].
    split; [exact (mix_finite _ _ Hf Hfi)|].
    intros k.
    destruct (mix_worth _ _ Hf Hfi Hs Hsi k) as (a & b & Ea & Eb & Hw).
    destruct (Hpos k) as (a' & Ea' & Ha). rewrite Ea in Ea'. injection Ea' as <-.
    destruct (Hfi k) as (b' & Eb' & Hb). rewrite Eb in Eb'. injection Eb' as <-.
    apply worth_inv in Hw as (p & Ep & Hp). exists p. split; [done|]. rewrite Hp. lra.
Qed.

(** X20: a beat whose tokens are held at one point of the run has them at
    every later point: tokens are never taken away. *)
Theorem feasible_stays_feasible n m fn :
  n ≤ m →
  hasAll (tokens (runPrefix surfaces n states intents)) (needsOf fn) = true →
  hasAll (tokens (runPrefix surfaces m states intents)) (needsOf fn) = true.
Proof.
  intros Hnm. rewrite !hasAll_spec. intros H t Ht.
  by apply (tokens_grow surfaces states intents n m Hnm), H.
Qed.

(** X22: a generated narrative has between 4 and [4 + 5 * length states]
    lines, and none of them is the empty string. *)
Theorem narrative_lines rows lines :
  onGenerate surfaces rows states intents = Generated lines →
  4 ≤ length (narrative lines) ≤ 4 + 5 * length states ∧
  ∀ text, text ∈ narrative lines → text ≠ "".
Proof.
  unfold onGenerate. case_bool_decide; [done|]. intros [= <-].
  rewrite <- (runPrefix_ge surfaces states intents (length states)) by lia.
  unfold narrative, finish. split.
  - rewrite length_fmap, length_app. cbn [length].
    pose proof (out_length (length states)). lia.
  - intros text ([o t] & -> & Hin)%list_elem_of_fmap. cbn [snd].
    apply elem_of_app in Hin as [Hin|Hin].
    + apply (out_nonempty _ _ Hin).
    + revert Hin. rewrite !elem_of_cons.
      intros [[= -> ->]|[[= -> ->]|Hin]];
        [by apply orElse_nonempty|done|by apply elem_of_nil in Hin].
Qed.
End Narrative.

Lemma feasible_stays_feasible_witness :
  hasAll (tokens (runPrefix [] 1 [emptyState ∅; emptyState ∅] [])) (needsOf "fn.crossing") = true ∧
  hasAll (tokens (runPrefix [] 2 [emptyState ∅; emptyState ∅] [])) (needsOf "fn.crossing") = true.
Proof.
  assert (hasAll (tokens (runPrefix [] 1 [emptyState ∅; emptyState ∅] []))
            (needsOf "fn.crossing") = true) as H by (vm_compute; reflexivity).
  split; [exact H|].
  exact (feasible_stays_feasible [] [emptyState ∅; emptyState ∅] [] 1 2 "fn.crossing"
           ltac:(lia) H).
Defined.

Lemma narrative_lines_witness :
  4 ≤ length (narrative (finish [] (out (runLoop [] [emptyState ∅] [])))) ≤ 4 + 5 * 1 ∧
  ∀ text, text ∈ narrative (finish [] (out (runLoop [] [emptyState ∅] []))) → text ≠ "".
Proof.
  exact (narrative_lines [] [emptyState ∅] [] [∅] _ eq_refl).
Defined.

(** ** The side quest *)

Lemma sq_exit fuel i sList path : sideQuestLoop fuel i sList SQ_exit path = path.
Proof. by destruct fuel. Qed.

Lemma sq_boon fuel i sList path :
  sideQuestLoop fuel i sList SQ_boon path = path ++ take fuel [SQ_boon].
Proof.
  destruct fuel as [|fuel]; cbn; [by rewrite app_nil_r|].
  rewrite sq_exit. by destruct fuel.
Qed.

Lemma sq_inmost fuel i sList path :
  sideQuestLoop fuel i sList SQ_inmost path = path ++ take fuel [SQ_inmost; SQ_boon].
Proof.
  destruct fuel as [|fuel]; cbn; [by rewrite app_nil_r|].
  rewrite sq_boon, <- app_assoc. by destruct fuel.
Qed.

Lemma sq_trials fuel i sList path :
  ∃ k, sideQuestLoop fuel i sList SQ_trials path =
         path ++ take fuel (replicate k SQ_trials ++ [SQ_inmost; SQ_boon]).
Proof.
  revert i path. induction fuel as [|fuel IH]; intros i path.
  - exists 0. cbn. by rewrite app_nil_r.
  - cbn [sideQuestLoop]. rewrite bool_decide_eq_false_2 by done.
    rewrite (bool_decide_eq_true_2 (SQ_trials = SQ_trials)) by done. cbv zeta.
    cbn [andb SQ_EDGES head default from_option Datatypes.id].
    destruct (gt _ (Fin 0.006)).
    + exists 1. rewrite sq_inmost, <- app_assoc. reflexivity.
    + destruct (IH (S i) (path ++ [SQ_trials])) as [k ->].
      exists (S k). by rewrite <- app_assoc.
Qed.

Lemma sq_threshold fuel sList :
  ∃ k, sideQuestLoop fuel 0 sList SQ_threshold [] =
         take fuel (SQ_threshold :: replicate k SQ_trials ++ [SQ_inmost; SQ_boon]).
Proof.
  destruct fuel as [|fuel]; [by exists 0|].
  cbn [sideQuestLoop]. rewrite bool_decide_eq_false_2 by done.
  rewrite (bool_decide_eq_false_2 (SQ_threshold = SQ_trials)) by done. cbv zeta.
  cbn [andb SQ_EDGES head default from_option Datatypes.id].
  destruct (sq_trials fuel 1 sList ([] ++ [SQ_threshold])) as [k ->]. by exists k.
Qed.

Lemma sq_path_shape steps sList :
  ∃ k, pickSideQuestPath steps sList =
         take steps (SQ_threshold :: replicate k SQ_trials ++ [SQ_inmost; SQ_boon])
         ++ [SQ_exit].
Proof.
  unfold pickSideQuestPath. cbv zeta.
  destruct (sq_threshold steps sList) as [k ->]. exists k.
  rewrite bool_decide_eq_false_2; [done|].
  intros (i & Hi & _)%elem_of_take.
  destruct i as [|i]; [done|]. cbn in Hi.
  apply list_elem_of_lookup_2, elem_of_app in Hi as [Hi%elem_of_replicate|Hi]; [by destruct Hi|].
  revert Hi. rewrite !elem_of_cons, elem_of_nil. by intros [|[|]].
Qed.

Lemma quiet_lookup sList i :
  quiet sList →
  gt (from_option (λ s, orZero (s_var s !! "seismic")) (Fin 0)
        (if bool_decide (length sList = 0) then None
         else sList !! Nat.min i (length sList - 1))) (Fin 0.006) = false.
Proof.
  intros Hq. case_bool_decide; [done|].
  destruct (sList !! Nat.min i (length sList - 1)) as [s|] eqn:E; [|done].
  cbn. apply Hq. by eapply list_elem_of_lookup_2.
Qed.

Lemma sq_trials_quiet fuel i sList path :
  quiet sList →
  sideQuestLoop fuel i sList SQ_trials path = path ++ replicate fuel SQ_trials.
Proof.
  intros Hq. revert i path. induction fuel as [|fuel IH]; intros i path.
  - cbn. by rewrite app_nil_r.
  - cbn [sideQuestLoop]. rewrite bool_decide_eq_false_2 by done.
    rewrite (bool_decide_eq_true_2 (SQ_trials = SQ_trials)) by done. cbv zeta.
    rewrite (quiet_lookup sList i Hq).
    cbn [andb SQ_EDGES head default from_option Datatypes.id].
    rewrite IH, <- app_assoc. reflexivity.
Qed.

Lemma sq_threshold_quiet n sList :
  quiet sList →
  sideQuestLoop (S n) 0 sList SQ_threshold [] = SQ_threshold :: replicate n SQ_trials.
Proof.
  intros Hq. cbn [sideQuestLoop]. rewrite bool_decide_eq_false_2 by done.
  rewrite (bool_decide_eq_false_2 (SQ_threshold = SQ_trials)) by done. cbv zeta.
  cbn [andb SQ_EDGES head default from_option Datatypes.id].
  by rewrite (sq_trials_quiet _ _ _ _ Hq).
Qed.

Lemma inmost_at steps k x :
  (take steps (SQ_threshold :: replicate k SQ_trials ++ [SQ_inmost; SQ_boon]) ++ [SQ_exit]) !! x
    = Some SQ_inmost → x = S k.
Proof.
  intros H. apply lookup_app_Some in H as [H|[_ H]].
  - apply lookup_take_Some in H as [H _].
    destruct x as [|x]; [done|]. cbn in H. f_equal.
    apply lookup_app_Some in H as [H|[Hge H]].
    + by apply lookup_replicate in H as [? _].
    + rewrite length_replicate in Hge, H.
      destruct (x - k) as [|[|?]] eqn:E; cbn in H; [lia|done|done].
  - by apply list_lookup_singleton_Some in H as [_ ?].
Qed.

Lemma steer_shamanic a b p i r :
  steer a b p i r = shamanic → r ≠ shamanic →
  a ≤ i ∧ p !! (i - a) = Some SQ_inmost.
Proof.
  unfold steer. destruct (Nat.leb_spec a i); cbn [andb]; [|done].
  destruct (i <? b)%nat; [|done].
  destruct (p !! (i - a)) as [[]|]; try done.
  case_bool_decide; [done|done].
Qed.

(** X23: the side-quest path is the start of threshold, some trials,
    inmost, boon, cut after [steps] nodes, and then the exit: the loop never
    puts the exit on the path, so the exit is always appended, once. *)
Theorem sideQuest_shape steps sList :
  ∃ k, pickSideQuestPath steps sList =
         take steps (SQ_threshold :: replicate k SQ_trials ++ [SQ_inmost; SQ_boon])
         ++ [SQ_exit].
Proof. apply sq_path_shape. Qed.

(** X24: when no state of the side quest has a seismic variance above 0.006,
    the path stays in the trials until its steps run out; inmost and boon are
    not reached. *)
Theorem sideQuest_quiet n sList :
  quiet sList →
  pickSideQuestPath (S n) sList = SQ_threshold :: replicate n SQ_trials ++ [SQ_exit].
Proof.
  intros Hq. unfold pickSideQuestPath. cbv zeta.
  rewrite (sq_threshold_quiet _ _ Hq).
  rewrite bool_decide_eq_false_2; [done|].
  rewrite elem_of_cons, elem_of_replicate. by intros [|[]].
Qed.

Lemma sideQuest_quiet_witness :
  pickSideQuestPath 4 [shearState; shearState] =
    [SQ_threshold; SQ_trials; SQ_trials; SQ_trials; SQ_exit].
Proof.
  apply (sideQuest_quiet 3 [shearState; shearState]).
  intros s Hs. rewrite !elem_of_cons, elem_of_nil in Hs.
  destruct Hs as [->|[->|[]]]; reflexivity.
Defined.

(** X25: in one run the side quest turns at most one step to the shamanic
    regime: two steps that steering moves to shamanic are the same step. *)
Theorem steer_shamanic_once states i j r r' :
  steer (sqStartOf states) (sqEndOf states) (sqPathOf states) i r = shamanic → r ≠ shamanic →
  steer (sqStartOf states) (sqEndOf states) (sqPathOf states) j r' = shamanic → r' ≠ shamanic →
  i = j.
Proof.
  intros Hi Hr Hj Hr'.
  apply steer_shamanic in Hi as [Hai Hi]; [|done].
  apply steer_shamanic in Hj as [Haj Hj]; [|done].
  unfold sqPathOf in Hi, Hj. cbv zeta in Hi, Hj.
  destruct (sq_path_shape (Nat.max 1 (sqEndOf states - sqStartOf states))
              (take (sqEndOf states - sqStartOf states) (drop (sqStartOf states) states)))
    as [k E].
  rewrite E in Hi, Hj. apply inmost_at in Hi, Hj. lia.
Qed.

Lemma steer_shamanic_once_witness :
  steer (sqStartOf (replicate 4 loudState)) (sqEndOf (replicate 4 loudState))
        (sqPathOf (replicate 4 loudState)) 2 horror = shamanic ∧
  steer (sqStartOf (replicate 4 loudState)) (sqEndOf (replicate 4 loudState))
        (sqPathOf (replicate 4 loudState)) 2 thriller = shamanic ∧
  2 = 2.
Proof.
  assert (steer (sqStartOf (replicate 4 loudState)) (sqEndOf (replicate 4 loudState))
            (sqPathOf (replicate 4 loudState)) 2 horror = shamanic) as H1
    by (vm_compute; reflexivity).
  assert (steer (sqStartOf (replicate 4 loudState)) (sqEndOf (replicate 4 loudState))
            (sqPathOf (replicate 4 loudState)) 2 thriller = shamanic) as H2
    by (vm_compute; reflexivity).
  split; [exact H1|]. split; [exact H2|].
  exact (steer_shamanic_once (replicate 4 loudState) 2 2 horror thriller
           H1 ltac:(discriminate) H2 ltac:(discriminate)).
Defined.

(** ** The sentence of a function *)

Lemma find_filter_same {A} (f : A → bool) (l : list A) :
  find f (filter (λ x, f x = true) l) = find f l.
Proof.
  induction l as [|x r IH]; [done|].
  rewrite filter_cons. cbn [find]. destruct (f x) eqn:E.
  - rewrite decide_True by done. cbn [find]. by rewrite E.
  - rewrite decide_False by congruence. done.
Qed.

Lemma fallback_covers regime fn :
  fn ∈ ALL_BEATS regime →
  ∃ l r, SURFACES_FALLBACK !! fn = Some (l :: r) ∧ l ≠ "".
Proof.
  intros Hfn.
  assert (Forall (λ fn, match SURFACES_FALLBACK !! fn with
                        | Some (l :: _) => negb (String.eqb l "")
                        | _ => false
                        end = true) (ALL_BEATS regime)) as Hall
    by (destruct regime; by_compute).
  rewrite Forall_forall in Hall. specialize (Hall fn Hfn).
  destruct (SURFACES_FALLBACK !! fn) as [[|l r]|]; try done.
  exists l, r. split; [done|]. intros ->. done.
Qed.

(** X26: the sentence of a function depends only on the entries of the
    surface table bound to that function: the other entries can be dropped. *)
Theorem pickSurfaceText_local surfaces fn NCV :
  pickSurfaceText (filter (λ e, bindsFn fn e = true) surfaces) fn NCV =
    pickSurfaceText surfaces fn NCV.
Proof.
  unfold pickSurfaceText. cbv zeta.
  rewrite list_filter_filter, find_filter_same.
  rewrite (list_filter_iff _
    (λ s, bindsFn fn s && bindOk (b_mood s) NCV "mood" && bindOk (b_pov s) NCV "pov"
          && bindOk (b_time s) NCV "time" && bindOk (b_terrain s) NCV "terrain" = true)); [done|].
  intros e. rewrite !andb_true_iff. tauto.
Qed.

(** X27: a beat of a palette is rendered as the empty string, and so left
    out of the narrative, only when the surface table has an entry bound to
    it whose text is empty: every palette beat has a stock sentence. *)
Theorem silent_beat_has_empty_entry surfaces regime fn NCV :
  fn ∈ ALL_BEATS regime → pickSurfaceText surfaces fn NCV = "" →
  ∃ e, e ∈ surfaces ∧ b_function e = Some fn ∧ text e = "".
Proof.
  intros Hfn. unfold pickSurfaceText. cbv zeta.
  destruct (filter _ surfaces) as [|c r] eqn:E.
  - destruct (fallback_covers regime fn Hfn) as (l & r & -> & Hne). done.
  - intros Ht. exists c.
    assert (c ∈ filter (λ s, bindsFn fn s && bindOk (b_mood s) NCV "mood"
              && bindOk (b_pov s) NCV "pov" && bindOk (b_time s) NCV "time"
              && bindOk (b_terrain s) NCV "terrain" = true) surfaces) as Hc
      by (rewrite E; by left).
    apply list_elem_of_filter in Hc as [Hc ?]. split; [done|]. split; [|done].
    rewrite !andb_true_iff in Hc. destruct Hc as [[[[Hc _] _] _] _].
    by apply bool_decide_eq_true in Hc.
Qed.

Lemma silent_beat_has_empty_entry_witness :
  ∃ e, e ∈ silentRoad ∧ b_function e = Some "fn.road_walk" ∧ text e = "".
Proof.
  apply (silent_beat_has_empty_entry silentRoad horror "fn.road_walk" ∅).
  - by_compute.
  - vm_compute. reflexivity.
Defined.

(** ** The rows of the component *)

Lemma first_row_named text r rest :
  parseCSV text = r :: rest →
  ∃ k, k ∈ (map_to_list r).*1 ∧ isNaN (StringToNumber k) = true.
Proof.
  unfold parseCSV. fold (csvLines text). fold (csvHeaders text).
  destruct (existsb header_like (csvHeaders text)) eqn:H; cbn [negb].
  - apply existsb_exists in H as (h & Hin%list_elem_of_In & Hh).
    unfold header_like in Hh. apply andb_true_iff in Hh as [Hh _].
    destruct (tl (csvLines text)) as [|ln lns]; [done|]. cbn. intros [= <- _].
    exists h. split; [|done].
    assert (h ∈ dom (parseLine (csvHeaders text) ln)) as Hd.
    { rewrite (proj1 (parseLine_spec _ _)). by apply elem_of_list_to_set. }
    apply elem_of_dom in Hd as [v Hv].
    apply list_elem_of_fmap. exists (h, v). split; [done|]. by apply elem_of_map_to_list.
  - destruct (csvLines text) as [|ln lns]; [done|]. cbn. intros [= <- _].
    exists "value". split; [|by vm_compute].
    rewrite map_to_list_singleton. by left.
Qed.

Lemma rowsOf_eq text engaged :
  rowsOf text engaged =
    (λ r : Row, list_to_map ((λ k, (k, cell r k)) <$>
        engagedCols engaged (map_to_list (default ∅ (head (parseCSV text)))).*1) : Row)
    <$> parseCSV text.
Proof.
  unfold rowsOf. cbv zeta.
  destruct (existsb _ _) eqn:E; cbn [negb]; [done|].
  destruct (parseCSV text) as [|r rest] eqn:Ep; [done|exfalso].
  destruct (first_row_named text r rest Ep) as (k & Hk & Hnan).
  apply not_true_iff_false in E. apply E, existsb_exists.
  exists k. split; [|done]. by apply list_elem_of_In.
Qed.




(** X29: clicking Generate reports missing data exactly when the text is a
    header line with nothing after it; on any other text it throws or gives
    a narrative. *)
Theorem generate_NoData_iff surfaces evalExpr text engaged cb :
  generate surfaces evalExpr text engaged cb = Ok NoData ↔
    hasHeader text = true ∧ length (csvLines text) = 1.
Proof.
  assert (length (rowsOf text engaged) = 0 ↔
          hasHeader text = true ∧ length (csvLines text) = 1) as <-.
  { rewrite rowsOf_eq, length_fmap.
    unfold parseCSV, hasHeader. fold (csvLines text). fold (csvHeaders text).
    assert (csvLines text ≠ []) as Hne.
    { unfold csvLines. by destruct (trim text) as [|c [|c' r]]; cbn;
        repeat (destruct (Ascii.eqb _ _); cbn); try done;
        match goal with |- context [push_front ?c ?l] => destruct l end. }
    destruct (existsb header_like (csvHeaders text)); cbn [negb];
      rewrite length_fmap; destruct (csvLines text) as [|ln [|ln' lns]]; cbn; try done;
      split; try lia; try tauto; intros [? ?]; try done; lia. }
  unfold generate, statesOf, onGenerate. cbv zeta.
  case_bool_decide as Hlen.
  - cbn. by split.
  - destruct (computeStates _ cb); cbn; by split.
Qed.
